(** * minio-cluster-tool: topology builder, rolling-reboot scheduler and
      heal orchestrator

    A shallow embedding of [getInfra], [makeHostfile], [areAllSetsOK],
    [haveMatchingSets], [stringKeysSorted], [heal] and [healSet] of the
    cluster tool, followed by the properties of its specification.

    Conventions.
    - Go's [int] is a 64-bit two's complement integer: it is a [Z] and every
      [+] and [-] of the source goes through [wrap].
    - Go maps are [gmap]s.  A [range] over a map visits the entries in an
      order chosen by the runtime; the order is the parameter [order] of the
      development, and every [range] of the source enumerates
      [order (map_to_list m)].
    - A [*Server], [*Set] or [*Pool] is only ever reached through the map
      that owns it, so a write through the pointer is an update of the entry
      at its key ([alter], [insert]).
    - A Go panic is the result [None]. *)

From Stdlib Require Import ZArith Ascii String DecimalString DecimalZ DecimalPos.
From Stdlib Require Import OrderedTypeEx.
From stdpp Require Import gmap strings list sorting.

Local Open Scope Z_scope.

(** ** Machine integers and [strconv] *)

Definition int_min : Z := - 2 ^ 63.
Definition int_max : Z := 2 ^ 63 - 1.

Definition is_int (z : Z) : Prop := int_min ≤ z ≤ int_max.

Definition wrap (z : Z) : Z := (z + 2 ^ 63) `mod` 2 ^ 64 - 2 ^ 63.

Definition int_add (a b : Z) : Z := wrap (a + b).
Definition int_sub (a b : Z) : Z := wrap (a - b).

(** [strconv.Itoa]: decimal digits, a leading [-] for negative numbers. *)
Definition Itoa (z : Z) : string := NilZero.string_of_int (Z.to_int z).

(** [strconv.Atoi]: an optional sign, then decimal digits; an error
    ([None]) on anything else and on values outside [int]. *)
Definition Atoi (s : string) : option Z :=
  let digits :=
    match s with
    | String c s' =>
        if Ascii.eqb c "+" then option_map Decimal.Pos (NilZero.uint_of_string s')
        else NilZero.int_of_string s
    | EmptyString => None
    end in
  match digits with
  | Some d =>
      let z := Z.of_int d in
      if bool_decide (int_min ≤ z ≤ int_max) then Some z else None
  | None => None
  end.

(** [fmt.Sprintf("%d/%d", a, b)] *)
Definition Sprintf_d_slash_d (a b : Z) : string :=
  Itoa a +:+ "/" +:+ Itoa b.

(** [sort.Strings] sorts in ascending byte-wise order. *)
Definition string_le (a b : string) : Prop := String.leb a b = true.

#[global] Instance string_le_dec : RelDecision string_le.
Proof. intros a b. unfold string_le. apply _. Defined.

(** ** Loops that may panic *)

(** A loop over a slice whose body may panic: the first panic ends it. *)
Fixpoint foldl_opt {A B} (f : B → A → option B) (b : B) (l : list A) : option B :=
  match l with
  | [] => Some b
  | a :: l =>
      match f b a with
      | Some b' => foldl_opt f b' l
      | None => None
      end
  end.

(** ** Data model *)

Module url.
Record URL := mkURL { Hostname : string; Path : string }.
End url.

Module madmin.
  (** The fields of [madmin.Disk] that the tool reads. *)
Record Disk := mkDisk {
    Endpoint : string;
    DrivePath : string;
    State : string;
    UUID : string;
    PoolIndex : Z;
    SetIndex : Z;
    DiskIndex : Z
  }.

Record BackendInfo := mkBackendInfo {
    StandardSCParity : Z;
    RRSCParity : Z
  }.

Record StorageInfo := mkStorageInfo {
    Disks : list Disk;
    Backend : BackendInfo
  }.

Record HealOpts := mkHealOpts {
    Recursive : bool;
    DryRun : bool;
    Remove : bool;
    Recreate : bool;
    ScanMode : Z;
    UpdateParity : bool;
    NoLock : bool;
    Pool : Z;
    Set_ : Z
  }.

  (** The arguments of one call of [AdminClient.Heal]. *)
Record HealCall := mkHealCall {
    bucket : string;
    prefix : string;
    healOpts : HealOpts;
    clientToken : string;
    forceStart : bool;
    forceStop : bool
  }.

  (** What [GetMissingCounts], [GetCorruptedCounts] and [GetOfflineCounts]
      return for one item: the count before and after the repair. *)
Record HealResultItem := mkHealResultItem {
    MissingBefore : Z;
    MissingAfter : Z;
    CorruptedBefore : Z;
    CorruptedAfter : Z;
    OfflineBefore : Z;
    OfflineAfter : Z
  }.

  (** The answer to one call: an error, or the client token of
      [HealStartSuccess] and the items of [HealTaskStatus]. *)
Inductive HealResponse :=
    | HealErr
    | HealOK (ClientToken : string) (Items : list HealResultItem).
End madmin.

Module Disk.
Record t := mk {
    UUID : string;
    Index : Z;
    Pool : Z;
    Server : string;
    Set_ : Z;
    Path : string;
    State : string
  }.
End Disk.

Module Set_.
Record t := mk {
    SCParity : Z;
    RRSCParity : Z;
    BadDisks : Z;
    ID : Z;
    Pool : Z;
    CanReboot : bool;
    Disks : gmap string Disk.t
  }.

Definition with_BadDisks (n : Z) (s : t) : t :=
    mk (SCParity s) (RRSCParity s) n (ID s) (Pool s) (CanReboot s) (Disks s).
Definition with_CanReboot (b : bool) (s : t) : t :=
    mk (SCParity s) (RRSCParity s) (BadDisks s) (ID s) (Pool s) b (Disks s).
Definition with_Disks (d : gmap string Disk.t) (s : t) : t :=
    mk (SCParity s) (RRSCParity s) (BadDisks s) (ID s) (Pool s) (CanReboot s) d.
End Set_.

Module Server.
Record t := mk {
    Sets : gmap Z Set_.t;
    Endpoint : string;
    Rebooted : bool;
    Processed : bool
  }.

Definition with_Sets (m : gmap Z Set_.t) (s : t) : t :=
    mk m (Endpoint s) (Rebooted s) (Processed s).
Definition with_Processed (b : bool) (s : t) : t :=
    mk (Sets s) (Endpoint s) (Rebooted s) b.
End Server.

Module Pool.
Record t := mk { Servers : gmap string Server.t }.
End Pool.

(** The two maps and the counter that [getInfra] builds. *)
Record Infra := mkInfra {
  pools : gmap string Pool.t;
  setInfo : gmap string (gmap string Set_.t);
  totalServers : Z
}.

Section Program.

(** [url.Parse] of the standard library: [None] when it returns an error. *)
Variable url_Parse : string → option url.URL.

(** The order in which the runtime enumerates the entries of a map. *)
Variable order : ∀ A : Type, list A → list A.

Definition range {K} `{Countable K} {V} (m : gmap K V) : list (K * V) :=
  order _ (map_to_list m).

(** ** Topology builder: [getInfra] *)

(** The keys under which a disk record is filed. *)
Definition PI_of (d : madmin.Disk) : string := Itoa (int_add (madmin.PoolIndex d) 1).
Definition SI_of (d : madmin.Disk) : Z := int_add (madmin.SetIndex d) 1.

(** The struct literals of the first pass. *)
Definition new_Server (hostname : string) : Server.t :=
  Server.mk ∅ hostname false false.

Definition new_Set (b : madmin.BackendInfo) (d : madmin.Disk) (CanReboot : bool)
    : Set_.t :=
  Set_.mk (madmin.StandardSCParity b) (madmin.RRSCParity b) 0 (SI_of d)
    (int_add (madmin.PoolIndex d) 1) CanReboot ∅.

Definition new_Disk (x : url.URL) (d : madmin.Disk) : Disk.t :=
  Disk.mk (madmin.UUID d) (madmin.DiskIndex d) (int_add (madmin.PoolIndex d) 1)
    (madmin.Endpoint d) (SI_of d)
    (if bool_decide (madmin.DrivePath d = "") then url.Path x
     else madmin.DrivePath d)
    (madmin.State d).

(** The body of the loop over [info.Disks] (first pass). *)
Definition getInfra_disk (b : madmin.BackendInfo) (st : Infra) (d : madmin.Disk)
    : option Infra :=
  let PI := PI_of d in
  let SI := SI_of d in
  let sets_of_pool := default ∅ (setInfo st !! PI) in
  let pool := default (Pool.mk ∅) (pools st !! PI) in
  match url_Parse (madmin.Endpoint d) with
  | None => None
  | Some x =>
      let '(server, total) :=
        match Pool.Servers pool !! url.Hostname x with
        | Some s => (s, totalServers st)
        | None => (new_Server (url.Hostname x), int_add (totalServers st) 1)
        end in
      let set := default (new_Set b d false) (Server.Sets server !! SI) in
      let seti := default (new_Set b d true) (sets_of_pool !! Itoa SI) in
      let seti :=
        if bool_decide (madmin.State d ≠ "ok")
        then Set_.with_BadDisks (int_add (Set_.BadDisks seti) 1) seti
        else seti in
      let set :=
        Set_.with_Disks (<[madmin.Endpoint d := new_Disk x d]> (Set_.Disks set)) set in
      let server := Server.with_Sets (<[SI := set]> (Server.Sets server)) server in
      let pool := Pool.mk (<[url.Hostname x := server]> (Pool.Servers pool)) in
      Some (mkInfra (<[PI := pool]> (pools st))
                    (<[PI := <[Itoa SI := seti]> sets_of_pool]> (setInfo st))
                    total)
  end.

Definition getInfra_disks (b : madmin.BackendInfo) (st : Infra)
    (ds : list madmin.Disk) : option Infra :=
  foldl_opt (getInfra_disk b) st ds.

(** The body of the innermost loop of the second pass: what is written to
    the set view [vvv] found under key [iii] of a server of pool [i]. *)
Definition getInfra_view (si : gmap string (gmap string Set_.t)) (i : string)
    (iii : Z) (vvv : Set_.t) : Set_.t :=
  match default ∅ (si !! i) !! Itoa iii with
  | Some seti =>
      let vvv :=
        if Set_.BadDisks seti >=? int_sub (Set_.SCParity seti) 1
        then Set_.with_CanReboot false vvv
        else Set_.with_CanReboot true vvv in
      Set_.with_BadDisks (Set_.BadDisks seti) vvv
  | None => vvv
  end.

Definition getInfra_sets (si : gmap string (gmap string Set_.t)) (i : string)
    (vv : Server.t) : Server.t :=
  Server.with_Sets
    (foldl (λ acc kv, alter (getInfra_view si i kv.1) kv.1 acc)
       (Server.Sets vv) (range (Server.Sets vv)))
    vv.

Definition getInfra_servers (si : gmap string (gmap string Set_.t)) (i : string)
    (v : Pool.t) : Pool.t :=
  Pool.mk
    (foldl (λ acc kv, alter (getInfra_sets si i) kv.1 acc)
       (Pool.Servers v) (range (Pool.Servers v))).

(** The second pass, over [pools]. *)
Definition getInfra_pools (si : gmap string (gmap string Set_.t))
    (ps : gmap string Pool.t) : gmap string Pool.t :=
  foldl (λ acc kv, alter (getInfra_servers si kv.1) kv.1 acc) ps (range ps).

(** [getInfra], from the storage info it obtained: the pools and the number
    of servers, or a panic. *)
Definition getInfra (info : madmin.StorageInfo) : option (gmap string Pool.t * Z) :=
  match getInfra_disks (madmin.Backend info) (mkInfra ∅ ∅ 0) (madmin.Disks info) with
  | Some st => Some (getInfra_pools (setInfo st) (pools st), totalServers st)
  | None => None
  end.

(** ** Rolling-reboot scheduler: [makeHostfile] *)

Definition sort_Strings (l : list string) : list string :=
  merge_sort string_le l.

Definition stringKeysSorted {V} (m : gmap string V) : list string :=
  sort_Strings ((range m).*1).

Definition areAllSetsOK (s1 : Server.t) : bool :=
  forallb (λ kv : Z * Set_.t, Set_.CanReboot kv.2) (range (Server.Sets s1)).

Definition haveMatchingSets (s1 s2 : Server.t) : bool :=
  existsb (λ kv : Z * Set_.t, bool_decide (is_Some (Server.Sets s2 !! kv.1)))
    (range (Server.Sets s1)).

(** The variables of [makeHostfile] that its loops update.  An absent entry
    of [rebootRounds] is a nil map of the [200][200] array. *)
Record Sched := mkSched {
  sched_pools : gmap string Pool.t;
  rebootRounds : gmap (nat * Z) (gmap string Server.t);
  unhealthy : gmap string Server.t;
  processed : Z
}.

Definition mark_Processed (pkey skey : string) (ps : gmap string Pool.t)
    : gmap string Pool.t :=
  alter (λ v, Pool.mk (alter (Server.with_Processed true) skey (Pool.Servers v)))
    pkey ps.

(** The body of the loop labelled [nextServer]. *)
Definition makeHostfile_server (i : nat) (pid : Z) (pkey : string) (st : Sched)
    (skey : string) : option Sched :=
  match sched_pools st !! pkey ≫= λ v, Pool.Servers v !! skey with
  | None => None
  | Some s =>
      if Server.Processed s then Some st
      else if negb (areAllSetsOK s) then
        Some (mkSched (sched_pools st) (rebootRounds st)
                (<[Server.Endpoint s := s]> (unhealthy st)) (processed st))
      else
        let round := default ∅ (rebootRounds st !! (i, pid)) in
        match round !! Server.Endpoint s with
        | Some _ => Some st
        | None =>
            if existsb (λ kv : string * Server.t, haveMatchingSets kv.2 s) (range round)
            then Some st
            else
              Some (mkSched (mark_Processed pkey skey (sched_pools st))
                      (<[(i, pid) := <[Server.Endpoint s := Server.with_Processed true s]> round]>
                         (rebootRounds st))
                      (unhealthy st) (int_add (processed st) 1))
        end
  end.

(** The body of the loop over [poolss].  Indexing the array outside
    [0..199] panics. *)
Definition makeHostfile_pool (i : nat) (st : Sched) (pkey : string) : option Sched :=
  match Atoi pkey with
  | None => None
  | Some pid =>
      if bool_decide (0 ≤ pid < 200) then
        match sched_pools st !! pkey with
        | None => None
        | Some v =>
            let st :=
              match rebootRounds st !! (i, pid) with
              | Some _ => st
              | None =>
                  mkSched (sched_pools st) (<[(i, pid) := ∅]> (rebootRounds st))
                    (unhealthy st) (processed st)
              end in
            foldl_opt (makeHostfile_server i pid pkey) st
              (stringKeysSorted (Pool.Servers v))
        end
      else None
  end.

(** The loop over the rounds; the second component is the line
    [Total (n) Online (m)] when it is printed. *)
Fixpoint makeHostfile_rounds (totalServers : Z) (poolss : list string)
    (rounds : list nat) (st : Sched) : option (Sched * option (Z * Z)) :=
  match rounds with
  | [] => Some (st, None)
  | i :: rounds =>
      if processed st >=? totalServers then
        Some (st, Some (totalServers, processed st))
      else
        match foldl_opt (makeHostfile_pool i) st poolss with
        | Some st' => makeHostfile_rounds totalServers poolss rounds st'
        | None => None
        end
  end.

(** What [makeHostfile] leaves behind: the final values of its variables,
    the printed report, and the lines of the files [failure] and
    [round-<ri>] (an empty list: the file is not created). *)
Record Hostfile := mkHostfile {
  final : Sched;
  report : option (Z * Z);
  failure_file : list string;
  round_files : list (list string)
}.

Definition write_failure (st : Sched) : list string :=
  (λ kv : string * Server.t, Server.Endpoint kv.2) <$> range (unhealthy st).

Definition write_round (st : Sched) (ri : nat) : list string :=
  mjoin ((λ pid : Z,
            let rv2 := default ∅ (rebootRounds st !! (ri, pid)) in
            omap (λ rvkey, Server.Endpoint <$> rv2 !! rvkey) (stringKeysSorted rv2))
         <$> seqZ 0 200).

Definition makeHostfile (info : madmin.StorageInfo) : option Hostfile :=
  match getInfra info with
  | None => None
  | Some (pools, totalServers) =>
      let poolss := stringKeysSorted pools in
      match makeHostfile_rounds totalServers poolss (seq 0 200)
              (mkSched pools ∅ ∅ 0) with
      | None => None
      | Some (st, rep) =>
          Some (mkHostfile st rep (write_failure st) (write_round st <$> seq 0 200))
      end
  end.

(** ** Heal orchestrator: [heal] and [healSet] *)

Definition healOpts_of (poolIndex setIndex : Z) : madmin.HealOpts :=
  madmin.mkHealOpts true false false false 1 false false poolIndex setIndex.

(** The key of both writes of [healSet] to the progress map:
    [fmt.Sprintf("%d/%d", poolIndex, poolIndex)]. *)
Definition healSet_key (poolIndex setIndex : Z) : string :=
  Sprintf_d_slash_d poolIndex poolIndex.

(** The deferred function of [healSet]. *)
Definition healSet_deferred (poolIndex setIndex : Z) (m : gmap string Z)
    : gmap string Z :=
  <[healSet_key poolIndex setIndex := 0]> m.

(** One pass over [status.Items]: [(invalidStates, done)]. *)
Definition healSet_items (items : list madmin.HealResultItem) : Z * bool :=
  foldl
    (λ (acc : Z * bool) v,
       let '(invalidStates, done) := acc in
       let broken :=
         int_add (int_add (int_add (int_add (int_add
           (madmin.MissingBefore v) (madmin.MissingAfter v))
           (madmin.CorruptedBefore v)) (madmin.CorruptedAfter v))
           (madmin.OfflineBefore v)) (madmin.OfflineAfter v) in
       (int_add (int_add (int_add invalidStates (madmin.MissingAfter v))
                   (madmin.CorruptedAfter v)) (madmin.OfflineAfter v),
        if 0 <? broken then false else done))
    (0, true) items.

(** A monitor is observed after the admin API has answered a finite number
    of its calls: it has returned ([Exited]) or it is waiting for the next
    answer ([Running]). *)
Inductive MonitorState := Running | Exited.

Record Monitor := mkMonitor {
  healMap : gmap string Z;
  calls : list madmin.HealCall;
  monitorState : MonitorState
}.

(** The polling loop of [healSet]; [answers] are the answers of the admin
    API to the successive calls, [issued] the calls answered so far. *)
Fixpoint healSet_poll (poolIndex setIndex : Z) (token : string)
    (answers : list madmin.HealResponse) (m : gmap string Z)
    (issued : list madmin.HealCall) : Monitor :=
  match answers with
  | [] => mkMonitor m issued Running
  | a :: answers =>
      let issued :=
        issued ++ [madmin.mkHealCall "" "" (healOpts_of poolIndex setIndex)
                     token false false] in
      match a with
      | madmin.HealErr =>
          mkMonitor (healSet_deferred poolIndex setIndex m) issued Exited
      | madmin.HealOK token' items =>
          let '(invalidStates, done) := healSet_items items in
          let m := <[healSet_key poolIndex setIndex := invalidStates]> m in
          if done then
            mkMonitor (healSet_deferred poolIndex setIndex m) issued Exited
          else healSet_poll poolIndex setIndex token' answers m issued
      end
  end.

Definition healSet (poolIndex setIndex : Z) (answers : list madmin.HealResponse)
    (m : gmap string Z) : Monitor :=
  match answers with
  | [] => mkMonitor m [] Running
  | a :: answers =>
      let issued :=
        [madmin.mkHealCall "" "" (healOpts_of poolIndex setIndex) "" true false] in
      match a with
      | madmin.HealErr =>
          mkMonitor (healSet_deferred poolIndex setIndex m) issued Exited
      | madmin.HealOK token _ =>
          healSet_poll poolIndex setIndex token answers m issued
      end
  end.

(** The first loop of [heal], over the pools returned by [getInfra]: the
    registrations in the progress map and the monitors started, in the
    order of the [go] statements.  [endpoint] is the [-endpoint] flag. *)
Definition heal_sets (poolIndex : Z) (vv : Server.t)
    (acc : gmap string Z * list (Z * Z)) : gmap string Z * list (Z * Z) :=
  foldl
    (λ (acc : gmap string Z * list (Z * Z)) (kv : Z * Set_.t),
       (<[Sprintf_d_slash_d (int_sub poolIndex 1) (int_sub kv.1 1) := 1]> acc.1,
        acc.2 ++ [(int_sub poolIndex 1, int_sub kv.1 1)]))
    acc (range (Server.Sets vv)).

Definition heal_servers (endpoint : string) (poolIndex : Z) (v : Pool.t)
    (acc : gmap string Z * list (Z * Z)) : gmap string Z * list (Z * Z) :=
  foldl
    (λ acc (kv : string * Server.t),
       if bool_decide (endpoint = Server.Endpoint kv.2)
          || bool_decide (size (Pool.Servers v) = 1%nat)
       then heal_sets poolIndex kv.2 acc
       else acc)
    acc (range (Pool.Servers v)).

Definition heal_pools (endpoint : string) (ps : gmap string Pool.t)
    (m : gmap string Z) : option (gmap string Z * list (Z * Z)) :=
  foldl_opt
    (λ acc (kv : string * Pool.t),
       match Atoi kv.1 with
       | None => None
       | Some poolIndex => Some (heal_servers endpoint poolIndex kv.2 acc)
       end)
    (m, []) (range ps).

Definition heal (endpoint : string) (info : madmin.StorageInfo)
    : option (gmap string Z * list (Z * Z)) :=
  match getInfra info with
  | None => None
  | Some (pools, _) => heal_pools endpoint pools ∅
  end.

(** The check of the aggregator loop of [heal]: the sum of the counts is 0. *)
Definition heal_done (m : gmap string Z) : bool :=
  foldl (λ broken (kv : string * Z), int_add broken kv.2) 0 (range m) =? 0.

End Program.

(** ** Concrete collaborators for the examples *)

(** [url.Parse] on endpoints of the form [scheme://host:port/path]. *)
Fixpoint until_sep (s : string) : string :=
  match s with
  | EmptyString => EmptyString
  | String c s' =>
      if bool_decide (c = ":"%char ∨ c = "/"%char) then EmptyString
      else String c (until_sep s')
  end.

Fixpoint from_slash (s : string) : string :=
  match s with
  | EmptyString => EmptyString
  | String c s' => if bool_decide (c = "/"%char) then s else from_slash s'
  end.

Definition demo_Parse (s : string) : option url.URL :=
  let rest :=
    match String.index 0 "://" s with
    | Some n => String.substring (n + 3) (String.length s - (n + 3)) s
    | None => s
    end in
  Some (url.mkURL (until_sep rest) (from_slash rest)).

Definition order_id : ∀ A : Type, list A → list A := λ _ l, l.
Definition order_rev : ∀ A : Type, list A → list A := λ _ l, reverse l.

Definition disk (pool set : Z) (host path state : string) : madmin.Disk :=
  madmin.mkDisk ("http://" +:+ host +:+ ":9000" +:+ path) path state "" pool set 0.

Definition demo4 : madmin.StorageInfo :=
  madmin.mkStorageInfo
    [disk 0 0 "a" "/d1" "ok"; disk 0 0 "b" "/d1" "ok";
     disk 0 0 "c" "/d1" "ok"; disk 0 0 "d" "/d1" "ok"]
    (madmin.mkBackendInfo 2 1).


(** The four servers of the first scenario; the disk of [d] is offline. *)
Definition demo4bad : madmin.StorageInfo :=
  madmin.mkStorageInfo
    [disk 0 0 "a" "/d1" "ok"; disk 0 0 "b" "/d1" "ok";
     disk 0 0 "c" "/d1" "ok"; disk 0 0 "d" "/d1" "offline"]
    (madmin.mkBackendInfo 2 1).

(** One pool of 201 servers [h0] ... [h200] that all hold a disk of set 0. *)
Definition demo201 : madmin.StorageInfo :=
  madmin.mkStorageInfo
    ((λ k : Z, disk 0 0 ("h" +:+ Itoa k) "/d1" "ok") <$> seqZ 0 201)
    (madmin.mkBackendInfo 2 1).

(** Two records with the same endpoint: the first offline, the second ok. *)
Definition demo_dup : madmin.StorageInfo :=
  madmin.mkStorageInfo
    [disk 0 0 "a" "/d1" "offline"; disk 0 0 "a" "/d1" "ok"]
    (madmin.mkBackendInfo 4 2).

(** One pool with the single server [a], whose only disk is offline. *)
Definition demo_sole : madmin.StorageInfo :=
  madmin.mkStorageInfo [disk 0 0 "a" "/d1" "offline"] (madmin.mkBackendInfo 2 1).

(** Two pools: in pool 0, set 0 is on servers [a] and [b] and set 1 on
    servers [b] and [c]; pool 1 has the single server [z]. *)
Definition demo_heal : madmin.StorageInfo :=
  madmin.mkStorageInfo
    [disk 0 0 "a" "/d1" "ok"; disk 0 0 "b" "/d1" "ok";
     disk 0 1 "b" "/d2" "ok"; disk 0 1 "c" "/d2" "ok";
     disk 1 0 "z" "/d1" "ok"; disk 1 1 "z" "/d2" "ok"]
    (madmin.mkBackendInfo 2 1).

(** The host [b] serves two pools: set 0 of pool 0 is on [a] and [b], set 0
    of pool 1 on [b] and [c]. *)
Definition demo_shared : madmin.StorageInfo :=
  madmin.mkStorageInfo
    [disk 0 0 "a" "/d1" "ok"; disk 0 0 "b" "/d1" "ok";
     disk 1 0 "b" "/d2" "ok"; disk 1 0 "c" "/d2" "ok"]
    (madmin.mkBackendInfo 2 1).

(** The host [b] serves two pools and its disk of pool 0 is offline. *)
Definition demo_both : madmin.StorageInfo :=
  madmin.mkStorageInfo
    [disk 0 0 "a" "/d1" "ok"; disk 0 0 "b" "/d1" "offline";
     disk 1 0 "b" "/d2" "ok"]
    (madmin.mkBackendInfo 2 1).

(** Answers of the admin API used by the examples: the heal sequence is
    started, then one status batch reports an item with [n] objects still
    missing after the repair attempt. *)
Definition item_missing (n : Z) : madmin.HealResultItem :=
  madmin.mkHealResultItem n n 0 0 0 0.

Definition demo_answers (n : Z) : list madmin.HealResponse :=
  [madmin.HealOK "token" []; madmin.HealOK "token" [item_missing n]].

(** ** Vocabulary of the properties *)

(** Whatever order the runtime picks, a [range] visits every entry of the
    map exactly once. *)
Definition order_ok (order : ∀ A : Type, list A → list A) : Prop :=
  ∀ A (l : list A), order A l ≡ₚ l.

(** The server [h] of pool [PI], and its view of the set [SI]. *)
Definition server_at (ps : gmap string Pool.t) (PI h : string) : option Server.t :=
  ps !! PI ≫= λ v, Pool.Servers v !! h.

Definition view_at (ps : gmap string Pool.t) (PI h : string) (SI : Z)
    : option Set_.t :=
  server_at ps PI h ≫= λ s, Server.Sets s !! SI.

(** The number of disk records of the set [(PI, SI)] that are not ["ok"]. *)
Definition bad_disk (PI : string) (SI : Z) (d : madmin.Disk) : Prop :=
  PI_of d = PI ∧ SI_of d = SI ∧ madmin.State d ≠ "ok".

Definition bad_count (PI : string) (SI : Z) (ds : list madmin.Disk) : Z :=
  Z.of_nat (length (filter (bad_disk PI SI) ds)).

(** The values written by one iteration of the first pass, for the disk
    record [d] whose endpoint parses to [x]. *)
Definition next_Server (b : madmin.BackendInfo) (st : Infra) (d : madmin.Disk)
    (x : url.URL) : Server.t :=
  let server :=
    default (new_Server (url.Hostname x))
      (server_at (pools st) (PI_of d) (url.Hostname x)) in
  let set := default (new_Set b d false) (Server.Sets server !! SI_of d) in
  Server.with_Sets
    (<[SI_of d :=
         Set_.with_Disks (<[madmin.Endpoint d := new_Disk x d]> (Set_.Disks set)) set]>
       (Server.Sets server))
    server.

Definition next_seti (b : madmin.BackendInfo) (st : Infra) (d : madmin.Disk)
    : Set_.t :=
  let seti :=
    default (new_Set b d true)
      (default ∅ (setInfo st !! PI_of d) !! Itoa (SI_of d)) in
  if bool_decide (madmin.State d ≠ "ok")
  then Set_.with_BadDisks (int_add (Set_.BadDisks seti) 1) seti
  else seti.

(** The servers of a topology, as (pool key, hostname) pairs. *)
Definition server_keys (ps : gmap string Pool.t) : gset (string * string) :=
  list_to_set
    (map_to_list ps ≫= λ kv : string * Pool.t,
       (λ h : string, (kv.1, h)) <$> (map_to_list (Pool.Servers kv.2)).*1).

(** The disk stored under endpoint [e] in the view of set [SI] held by
    server [h] of pool [PI]; the records that are filed there; and the
    [Disk] that the first pass makes of a record. *)
Definition disk_at (ps : gmap string Pool.t) (PI h : string) (SI : Z) (e : string)
    : option Disk.t :=
  view_at ps PI h SI ≫= λ v, Set_.Disks v !! e.

Definition filed_at (url_Parse : string → option url.URL) (PI h : string)
    (SI : Z) (e : string) (d : madmin.Disk) : Prop :=
  PI_of d = PI ∧ url.Hostname <$> url_Parse (madmin.Endpoint d) = Some h
  ∧ SI_of d = SI ∧ madmin.Endpoint d = e.

Definition Disk_of (url_Parse : string → option url.URL) (d : madmin.Disk)
    : option Disk.t :=
  (λ x, new_Disk x d) <$> url_Parse (madmin.Endpoint d).

(** What the first pass establishes for the view [v] of set [SI] held by a
    server of pool [PI], and for the server [s] found under hostname [h]. *)
Definition view_ok (b : madmin.BackendInfo) (PI : string) (SI : Z) (v : Set_.t)
    : Prop :=
  Set_.ID v = SI ∧ Itoa (Set_.Pool v) = PI ∧ is_int (Set_.Pool v) ∧ is_int SI
  ∧ Set_.SCParity v = madmin.StandardSCParity b.

Definition server_ok (b : madmin.BackendInfo) (PI h : string) (s : Server.t)
    : Prop :=
  Server.Endpoint s = h ∧ Server.Processed s = false
  ∧ ∀ SI v, Server.Sets s !! SI = Some v → view_ok b PI SI v.

(** A server all of whose sets can be rebooted, and two servers that hold
    a view of a set under the same set id: what [areAllSetsOK] and
    [haveMatchingSets] decide. *)
Definition healthy (s : Server.t) : Prop :=
  ∀ k v, Server.Sets s !! k = Some v → Set_.CanReboot v = true.

Definition conflict (s1 s2 : Server.t) : Prop :=
  ∃ k, is_Some (Server.Sets s1 !! k) ∧ is_Some (Server.Sets s2 !! k).

(** The hosts [h1] and [h2] hold drives of a common erasure set: in some
    pool both have a view of the same set. *)
Definition hosts_share_set (ps : gmap string Pool.t) (h1 h2 : string) : Prop :=
  ∃ PI SI, is_Some (view_at ps PI h1 SI) ∧ is_Some (view_at ps PI h2 SI).

(** The host [h] serves at most one pool. *)
Definition one_pool (ps : gmap string Pool.t) (h : string) : Prop :=
  map_Forall (λ PI1 v1,
    map_Forall (λ PI2 v2,
      is_Some (Pool.Servers v1 !! h) → is_Some (Pool.Servers v2 !! h) → PI1 = PI2)
      ps) ps.

#[global] Instance one_pool_dec ps h : Decision (one_pool ps h).
Proof. unfold one_pool. apply _. Defined.

(** Server [h] of pool [PI] is in round [i]; the server found under
    endpoint [e] in the part of round [i] that belongs to pool number
    [pid]. *)
Definition placed (st : Sched) (i : nat) (pid : Z) (e : string) : option Server.t :=
  default ∅ (rebootRounds st !! (i, pid)) !! e.

Definition assigned (st : Sched) (PI h : string) (i : nat) : Prop :=
  ∃ pid, Atoi PI = Some pid ∧ is_Some (placed st i pid h).

(** The host name [h] is a line of the file [round-<i>]. *)
Definition in_round (out : Hostfile) (i : nat) (h : string) : Prop :=
  ∃ f, round_files out !! i = Some f ∧ h ∈ f.

(** Every part of a round is an element of the [200][200] array. *)
Definition in_array (st : Sched) : Prop :=
  ∀ i pid e, is_Some (placed st i pid e) → (i < 200)%nat ∧ 0 ≤ pid < 200.

(** The topology that the scheduler starts from: every server and view is
    filed under its own name, and the pool keys are decimal numbers. *)
Definition topology_ok (b : madmin.BackendInfo) (ps0 : gmap string Pool.t) : Prop :=
  (∀ PI h s, server_at ps0 PI h = Some s → server_ok b PI h s)
  ∧ (∀ PI, is_Some (ps0 !! PI) → ∃ z, is_int z ∧ PI = Itoa z).

(** The server [s] of the initial topology, as the scheduler sees it once
    the servers in [P] have been marked [Processed]. *)
Definition mark (P : gset (string * string)) (PI h : string) (s : Server.t)
    : Server.t :=
  if decide ((PI, h) ∈ P) then Server.with_Processed true s else s.

(** The invariant of the scheduling loops; [ps0] is the topology returned
    by [getInfra], [P] the set of servers scheduled so far. *)
Record sched_inv (ps0 : gmap string Pool.t) (P : gset (string * string))
    (st : Sched) : Prop := mk_sched_inv {
  inv_pools : ∀ PI, is_Some (sched_pools st !! PI) ↔ is_Some (ps0 !! PI);
  inv_servers : ∀ PI h,
    server_at (sched_pools st) PI h = mark P PI h <$> server_at ps0 PI h;
  inv_scheduled : ∀ PI h, (PI, h) ∈ P →
    ∃ s0, server_at ps0 PI h = Some s0 ∧ healthy s0
          ∧ ∃ i pid, Atoi PI = Some pid
                     ∧ placed st i pid h = Some (Server.with_Processed true s0);
  inv_placed : ∀ i pid e s, placed st i pid e = Some s →
    ∃ PI s0, Atoi PI = Some pid ∧ server_at ps0 PI e = Some s0
             ∧ s = Server.with_Processed true s0 ∧ (PI, e) ∈ P;
  inv_once : ∀ i j pid e,
    is_Some (placed st i pid e) → is_Some (placed st j pid e) → i = j;
  inv_unhealthy : ∀ e s, unhealthy st !! e = Some s →
    ∃ PI, server_at ps0 PI e = Some s ∧ ¬ healthy s;
  inv_conflict : ∀ i pid e1 e2 s1 s2,
    placed st i pid e1 = Some s1 → placed st i pid e2 = Some s2 → e1 ≠ e2 →
    ¬ conflict s1 s2;
  inv_processed : processed st = wrap (Z.of_nat (size P))
}.

(** The healthy servers of pool [PI] that are not in the set [P] of the
    servers scheduled so far. *)
Definition healthyb (s : Server.t) : bool :=
  bool_decide (map_Forall (λ _ v, Set_.CanReboot v = true) (Server.Sets s)).

Definition pending (ps0 : gmap string Pool.t) (PI : string)
    (P : gset (string * string)) : gset (string * string) :=
  filter (λ x, x.1 = PI ∧ (x ∉ P)
               ∧ from_option healthyb false (server_at ps0 x.1 x.2) = true)
    (server_keys ps0).

(** Rounds and failure list only grow. *)
Definition sched_le (st st' : Sched) : Prop :=
  (∀ i pid e s, placed st i pid e = Some s → placed st' i pid e = Some s)
  ∧ (∀ e, is_Some (unhealthy st !! e) → is_Some (unhealthy st' !! e)).

(** What a stretch of the scheduling loops at round [i], over the pools
    [pkeys], adds: servers of these pools to [P], and to the rounds only
    the servers it adds to [P], in round [i]. *)
Definition grows (P : gset (string * string)) (st : Sched)
    (P' : gset (string * string)) (st' : Sched) (i : nat) (pkeys : list string)
    : Prop :=
  P ⊆ P' ∧ sched_le st st'
  ∧ (∀ PI h, (PI, h) ∈ P' → (PI, h) ∈ P ∨ PI ∈ pkeys)
  ∧ (∀ i' pid' e, is_Some (placed st' i' pid' e) →
       is_Some (placed st i' pid' e)
       ∨ (i' = i ∧ ∃ PI, PI ∈ pkeys ∧ Atoi PI = Some pid'
                         ∧ (PI, e) ∈ P' ∧ (PI, e) ∉ P)).

(** Server [h] of pool [PI] has been dealt with in round [i]: it is
    scheduled, or it has a set that cannot be rebooted and is in the
    failure list, or it is healthy and the part of round [i] that belongs
    to its pool is not empty. *)
Definition settled (ps0 : gmap string Pool.t) (P : gset (string * string))
    (st : Sched) (i : nat) (pid : Z) (PI h : string) : Prop :=
  (PI, h) ∈ P
  ∨ (∃ s, server_at ps0 PI h = Some s ∧ ¬ healthy s
          ∧ is_Some (unhealthy st !! h))
  ∨ ((∃ s, server_at ps0 PI h = Some s ∧ healthy s)
     ∧ ∃ e, is_Some (placed st i pid e)).

(** The servers whose sets [heal] goes through, and the pairs for which it
    starts a monitor. *)
Definition heal_gate (endpoint : string) (v : Pool.t) (vv : Server.t) : Prop :=
  endpoint = Server.Endpoint vv ∨ size (Pool.Servers v) = 1%nat.

Definition heal_target (ps : gmap string Pool.t) (endpoint : string) (p s : Z)
    : Prop :=
  ∃ PI v h vv si pid,
    ps !! PI = Some v ∧ Atoi PI = Some pid ∧ Pool.Servers v !! h = Some vv
    ∧ heal_gate endpoint v vv ∧ is_Some (Server.Sets vv !! si)
    ∧ p = int_sub pid 1 ∧ s = int_sub si 1.

(** The claim of the specification that no two servers of a round share
    an erasure set, the servers of a round being the hosts that its file
    lists; and the same claim in its own words: no set id occurs in the
    [Sets] maps of two servers of the same round. *)
Definition round_safe (url_Parse : string → option url.URL)
    (order : ∀ A : Type, list A → list A) (info : madmin.StorageInfo) : Prop :=
  ∀ out ps total i h1 h2,
    makeHostfile url_Parse order info = Some out →
    getInfra url_Parse order info = Some (ps, total) →
    in_round out i h1 → in_round out i h2 → h1 ≠ h2 →
    ¬ hosts_share_set ps h1 h2.

Definition round_no_common_set_id (url_Parse : string → option url.URL)
    (order : ∀ A : Type, list A → list A) (info : madmin.StorageInfo) : Prop :=
  ∀ out i pid1 pid2 e1 e2 s1 s2,
    makeHostfile url_Parse order info = Some out →
    placed (final out) i pid1 e1 = Some s1 →
    placed (final out) i pid2 e2 = Some s2 →
    (pid1, e1) ≠ (pid2, e2) →
    ¬ conflict s1 s2.

(** The claim of the specification that the scheduler accounts for every
    server and then prints its report, in two parts: every server is
    written either to a round file or to the failure file, and the report
    is printed. *)
Definition every_server_accounted (url_Parse : string → option url.URL)
    (order : ∀ A : Type, list A → list A) (info : madmin.StorageInfo) : Prop :=
  ∃ out ps total,
    makeHostfile url_Parse order info = Some out
    ∧ getInfra url_Parse order info = Some (ps, total)
    ∧ ∀ PI h, is_Some (server_at ps PI h) →
        (h ∈ mjoin (round_files out) ∧ (h ∉ failure_file out))
        ∨ ((h ∉ mjoin (round_files out)) ∧ h ∈ failure_file out).

Definition report_printed (url_Parse : string → option url.URL)
    (order : ∀ A : Type, list A → list A) (info : madmin.StorageInfo) : Prop :=
  ∃ out, makeHostfile url_Parse order info = Some out ∧ is_Some (report out).

Definition scheduler_complete (url_Parse : string → option url.URL)
    (order : ∀ A : Type, list A → list A) (info : madmin.StorageInfo) : Prop :=
  every_server_accounted url_Parse order info
  ∧ report_printed url_Parse order info.

(** The claim of the specification that the only server of a pool never
    goes to the failure list. *)
Definition sole_server_never_fails (url_Parse : string → option url.URL)
    (order : ∀ A : Type, list A → list A) (info : madmin.StorageInfo) : Prop :=
  ∀ out ps total PI v h,
    makeHostfile url_Parse order info = Some out →
    getInfra url_Parse order info = Some (ps, total) →
    ps !! PI = Some v → size (Pool.Servers v) = 1%nat →
    is_Some (Pool.Servers v !! h) →
    h ∉ failure_file out.

(** The claim of the specification that [heal] starts a monitor for every
    (pool, set) pair of the topology. *)
Definition heal_covers (url_Parse : string → option url.URL)
    (order : ∀ A : Type, list A → list A) (endpoint : string)
    (info : madmin.StorageInfo) : Prop :=
  ∃ m spawned,
    heal url_Parse order endpoint info = Some (m, spawned)
    ∧ ∀ d, d ∈ madmin.Disks info →
           (madmin.PoolIndex d, madmin.SetIndex d) ∈ spawned.

(** The claim of the specification that an errored unit stays at its last
    non-zero count, for the monitor of pool [p], set [s] that has been
    answered [oks] and is then answered an error. *)
Definition frozen_at_last_count (p s : Z) (oks : list madmin.HealResponse)
    (m : gmap string Z) : Prop :=
  ∃ c, c ≠ 0
       ∧ healMap (healSet p s oks m) !! Sprintf_d_slash_d p s = Some c
       ∧ healMap (healSet p s (oks ++ [madmin.HealErr]) m) !! Sprintf_d_slash_d p s
         = Some c.

(** The monitors started for one server and for one pool, as lists, and
    the state of the progress map when every monitor started so far has
    been registered with count 1. *)
Definition targets_sets (order : ∀ A : Type, list A → list A) (poolIndex : Z)
    (vv : Server.t) : list (Z * Z) :=
  (λ kv : Z * Set_.t, (int_sub poolIndex 1, int_sub kv.1 1))
  <$> range order (Server.Sets vv).

Definition targets_servers (order : ∀ A : Type, list A → list A)
    (endpoint : string) (poolIndex : Z) (v : Pool.t) : list (Z * Z) :=
  range order (Pool.Servers v) ≫= λ kv : string * Server.t,
    if bool_decide (endpoint = Server.Endpoint kv.2)
       || bool_decide (size (Pool.Servers v) = 1%nat)
    then targets_sets order poolIndex kv.2 else [].

Definition registered (acc : gmap string Z * list (Z * Z)) : Prop :=
  ∀ p s, (p, s) ∈ acc.2 → acc.1 !! Sprintf_d_slash_d p s = Some 1.

(** * Properties *)

(** Field updates are unfolded before any lookup in a record. *)
Ltac unrecord :=
  unfold Server.with_Sets, Server.with_Processed, Set_.with_Disks,
    Set_.with_BadDisks, Set_.with_CanReboot in *;
  cbn [Server.Sets Server.Endpoint Server.Rebooted Server.Processed
       Set_.SCParity Set_.RRSCParity Set_.BadDisks Set_.ID Set_.Pool
       Set_.CanReboot Set_.Disks Pool.Servers] in *.

(** ** Integers and decimal strings *)

Lemma wrap_id z : is_int z → wrap z = z.
Proof.
  unfold is_int, int_min, int_max, wrap. intros Hz.
  rewrite Z.mod_small by lia. lia.
Qed.

Lemma wrap_is_int z : is_int (wrap z).
Proof.
  unfold is_int, int_min, int_max, wrap.
  pose proof (Z.mod_pos_bound (z + 2 ^ 63) (2 ^ 64)). lia.
Qed.

Lemma wrap_wrap_add a b : wrap (wrap a + b) = wrap (a + b).
Proof.
  unfold wrap. f_equal.
  replace ((a + 2 ^ 63) `mod` 2 ^ 64 - 2 ^ 63 + b + 2 ^ 63)
    with ((a + 2 ^ 63) `mod` 2 ^ 64 + b) by lia.
  rewrite Zplus_mod_idemp_l. f_equal. lia.
Qed.

Lemma int_add_sub z : is_int z → int_sub (int_add z 1) 1 = z.
Proof.
  intros Hz. unfold int_sub, int_add.
  replace (wrap (z + 1) - 1) with (wrap (z + 1) + (-1)) by lia.
  rewrite wrap_wrap_add. replace (z + 1 + -1) with z by lia. by apply wrap_id.
Qed.

Lemma int_sub_add z : is_int z → int_add (int_sub z 1) 1 = z.
Proof.
  intros Hz. unfold int_sub, int_add.
  rewrite wrap_wrap_add. replace (z - 1 + 1) with z by lia. by apply wrap_id.
Qed.

Lemma int_sub_inj a b : is_int a → is_int b → int_sub a 1 = int_sub b 1 → a = b.
Proof. intros Ha Hb E. rewrite <- (int_sub_add a Ha), <- (int_sub_add b Hb). by rewrite E. Qed.

Lemma int_of_string_Itoa z : NilZero.int_of_string (Itoa z) = Some (Z.to_int z).
Proof.
  unfold Itoa. apply NilZero.isi; destruct z; simpl; try discriminate.
  - intros [= E]. by apply Unsigned.to_uint_nonnil in E.
  - intros [= E]. by apply Unsigned.to_uint_nonnil in E.
Qed.

Lemma Atoi_Itoa z : is_int z → Atoi (Itoa z) = Some z.
Proof.
  intros Hz. pose proof (int_of_string_Itoa z) as E. unfold Atoi.
  destruct (Itoa z) as [|c s'] eqn:Es; [done|].
  destruct (Ascii.eqb_spec c "+") as [->|_].
  - exfalso. simpl in E. by destruct (NilEmpty.uint_of_string s').
  - rewrite E, DecimalZ.of_to. by rewrite bool_decide_eq_true_2.
Qed.

Lemma Itoa_inj a b : Itoa a = Itoa b → a = b.
Proof.
  intros E. pose proof (int_of_string_Itoa a) as Ea.
  rewrite E, int_of_string_Itoa in Ea. injection Ea as Ea.
  by apply DecimalZ.to_int_inj.
Qed.

(** ** Loops over permuted lists *)

Lemma forallb_Permutation {A} (f : A → bool) l l' :
  l ≡ₚ l' → forallb f l = forallb f l'.
Proof.
  induction 1 as [|x l l' _ IH|x y l|l l' l'' _ IH1 _ IH2]; simpl.
  - done.
  - by rewrite IH.
  - by destruct (f x), (f y).
  - by rewrite IH1.
Qed.

Lemma existsb_Permutation {A} (f : A → bool) l l' :
  l ≡ₚ l' → existsb f l = existsb f l'.
Proof.
  induction 1 as [|x l l' _ IH|x y l|l l' l'' _ IH1 _ IH2]; simpl.
  - done.
  - by rewrite IH.
  - by destruct (f x), (f y).
  - by rewrite IH1.
Qed.

Lemma forallb_True {A} (f : A → bool) l :
  forallb f l = true ↔ ∀ x, x ∈ l → f x = true.
Proof.
  rewrite forallb_forall. by setoid_rewrite list_elem_of_In.
Qed.

Lemma existsb_True {A} (f : A → bool) l :
  existsb f l = true ↔ ∃ x, x ∈ l ∧ f x = true.
Proof.
  rewrite existsb_exists. by setoid_rewrite list_elem_of_In.
Qed.

(** Writing through the pointers found by a [range]: every entry is altered
    once, whatever the order. *)
Lemma foldl_alter_lookup `{Countable K} {V W} (f : K → V → V)
    (l : list (K * W)) (acc : gmap K V) (k : K) :
  NoDup l.*1 →
  foldl (λ acc kv, alter (f kv.1) kv.1 acc) acc l !! k
  = if decide (k ∈ l.*1) then f k <$> acc !! k else acc !! k.
Proof.
  revert acc. induction l as [|[k' w] l IH]; intros acc Hnd.
  - destruct (decide _) as [Hin|]; [by apply elem_of_nil in Hin|done].
  - rewrite fmap_cons in Hnd |- *. apply NoDup_cons in Hnd as [Hk' Hnd].
    cbn [foldl]. rewrite IH by done. cbn [fst].
    destruct (decide (k ∈ l.*1)) as [Hin|Hin],
             (decide (k ∈ k' :: l.*1)) as [Hin'|Hin'].
    + assert (k' ≠ k) by (by intros ->). by rewrite lookup_alter_ne.
    + exfalso. apply Hin'. apply elem_of_cons. by right.
    + apply elem_of_cons in Hin' as [->|?]; [|done]. by rewrite lookup_alter_eq.
    + rewrite lookup_alter_ne; [done|]. intros ->. apply Hin', elem_of_cons. by left.
Qed.

Lemma foldl_alter_range `{Countable K} {V} (f : K → V → V)
    (l : list (K * V)) (m : gmap K V) (k : K) :
  l ≡ₚ map_to_list m →
  foldl (λ acc kv, alter (f kv.1) kv.1 acc) m l !! k = f k <$> m !! k.
Proof.
  intros Hl. rewrite foldl_alter_lookup.
  - case_decide as Hin; [done|].
    destruct (m !! k) as [v|] eqn:Hk; [|done].
    exfalso. apply Hin. rewrite Hl. apply list_elem_of_fmap.
    exists (k, v). split; [done|]. by apply elem_of_map_to_list.
  - rewrite Hl. apply NoDup_fst_map_to_list.
Qed.

(** ** [sort.Strings] *)

#[global] Instance string_le_total : Total string_le.
Proof. intros a b. apply String.leb_total. Qed.

#[global] Instance string_le_antisymm : AntiSymm (=) string_le.
Proof. intros a b. apply String.leb_antisym. Qed.

#[global] Instance string_le_trans : Transitive string_le.
Proof.
  intros a b c. unfold string_le, String.leb.
  destruct (String.compare a b) eqn:Eab; [|intros _|done].
  - apply String.compare_eq_iff in Eab as ->. done.
  - destruct (String.compare b c) eqn:Ebc; [|intros _|done].
    + apply String.compare_eq_iff in Ebc as <-. by rewrite Eab.
    + apply String_as_OT.cmp_lt in Eab, Ebc.
      pose proof (String_as_OT.lt_trans _ _ _ Eab Ebc) as Hac.
      apply String_as_OT.cmp_lt in Hac. unfold String_as_OT.cmp in Hac.
      by rewrite Hac.
Qed.

Lemma sort_Strings_Permutation l : sort_Strings l ≡ₚ l.
Proof. apply merge_sort_Permutation. Qed.

Lemma sort_Strings_sorted l : StronglySorted string_le (sort_Strings l).
Proof. apply StronglySorted_merge_sort; apply _. Qed.

Lemma sort_Strings_unique l l' : l ≡ₚ l' → sort_Strings l = sort_Strings l'.
Proof.
  intros Hl. apply (StronglySorted_unique string_le); try apply sort_Strings_sorted.
  by rewrite !sort_Strings_Permutation.
Qed.

Lemma elem_of_sort_Strings x l : x ∈ sort_Strings l ↔ x ∈ l.
Proof. by rewrite sort_Strings_Permutation. Qed.

(** ** The second pass of [getInfra] *)

Section Topology.

Variable url_Parse : string → option url.URL.
Variable order : ∀ A : Type, list A → list A.
Hypothesis order_perm : order_ok order.

Lemma range_Permutation `{Countable K} {V} (m : gmap K V) :
  range order m ≡ₚ map_to_list m.
Proof. apply order_perm. Qed.

Lemma elem_of_range `{Countable K} {V} (m : gmap K V) k v :
  (k, v) ∈ range order m ↔ m !! k = Some v.
Proof. rewrite range_Permutation. apply elem_of_map_to_list. Qed.

Lemma elem_of_range_keys `{Countable K} {V} (m : gmap K V) k :
  k ∈ (range order m).*1 ↔ is_Some (m !! k).
Proof.
  rewrite list_elem_of_fmap. split.
  - intros [[k' v] [-> Hin]]. apply elem_of_range in Hin. by exists v.
  - intros [v Hv]. exists (k, v). split; [done|]. by apply elem_of_range.
Qed.

Lemma getInfra_sets_lookup si i vv k :
  Server.Sets (getInfra_sets order si i vv) !! k
  = getInfra_view si i k <$> Server.Sets vv !! k.
Proof. apply foldl_alter_range, range_Permutation. Qed.

Lemma getInfra_servers_lookup si i v h :
  Pool.Servers (getInfra_servers order si i v) !! h
  = getInfra_sets order si i <$> Pool.Servers v !! h.
Proof.
  apply (foldl_alter_range (λ _, getInfra_sets order si i)), range_Permutation.
Qed.

Lemma getInfra_pools_lookup si ps i :
  getInfra_pools order si ps !! i = getInfra_servers order si i <$> ps !! i.
Proof.
  apply (foldl_alter_range (getInfra_servers order si)), range_Permutation.
Qed.

Lemma getInfra_pools_server_at si ps PI h :
  server_at (getInfra_pools order si ps) PI h
  = getInfra_sets order si PI <$> server_at ps PI h.
Proof.
  unfold server_at. rewrite getInfra_pools_lookup.
  destruct (ps !! PI) as [v|]; [|done]. simpl. apply getInfra_servers_lookup.
Qed.

Lemma getInfra_pools_view_at si ps PI h SI :
  view_at (getInfra_pools order si ps) PI h SI
  = getInfra_view si PI SI <$> view_at ps PI h SI.
Proof.
  unfold view_at. rewrite getInfra_pools_server_at.
  destruct (server_at ps PI h) as [s|]; [|done]. simpl. apply getInfra_sets_lookup.
Qed.

End Topology.

(** ** The first pass of [getInfra] *)

Lemma foldl_opt_snoc {A B} (f : B → A → option B) b l a :
  foldl_opt f b (l ++ [a]) = foldl_opt f b l ≫= λ b', f b' a.
Proof.
  revert b. induction l as [|a' l IH]; intros b; simpl.
  - by destruct (f b a).
  - destruct (f b a'); [apply IH|done].
Qed.

Section FirstPass.

Variable url_Parse : string → option url.URL.
Variable b : madmin.BackendInfo.

Lemma getInfra_disk_Some st d st' :
  getInfra_disk url_Parse b st d = Some st' →
  ∃ x, url_Parse (madmin.Endpoint d) = Some x ∧
    pools st' =
      <[PI_of d :=
          Pool.mk (<[url.Hostname x := next_Server b st d x]>
                     (Pool.Servers (default (Pool.mk ∅) (pools st !! PI_of d))))]>
        (pools st) ∧
    setInfo st' =
      <[PI_of d := <[Itoa (SI_of d) := next_seti b st d]>
                     (default ∅ (setInfo st !! PI_of d))]> (setInfo st) ∧
    totalServers st' =
      match server_at (pools st) (PI_of d) (url.Hostname x) with
      | Some _ => totalServers st
      | None => int_add (totalServers st) 1
      end.
Proof.
  unfold getInfra_disk, next_Server, next_seti, server_at.
  destruct (url_Parse (madmin.Endpoint d)) as [x|]; [|done].
  intros E. exists x. split; [done|].
  destruct (pools st !! PI_of d) as [v|] eqn:Ev; simpl in *.
  - destruct (Pool.Servers v !! url.Hostname x) as [s|] eqn:Es; simpl in *;
      by injection E as <-.
  - rewrite lookup_empty in E. by injection E as <-.
Qed.

Lemma getInfra_disk_server_at st d st' x PI h :
  getInfra_disk url_Parse b st d = Some st' →
  url_Parse (madmin.Endpoint d) = Some x →
  server_at (pools st') PI h
  = if decide (PI = PI_of d ∧ h = url.Hostname x)
    then Some (next_Server b st d x) else server_at (pools st) PI h.
Proof.
  intros (x' & Ex & -> & _)%getInfra_disk_Some Hx.
  assert (x' = x) as -> by congruence.
  unfold server_at. destruct (decide (PI = PI_of d)) as [->|HPI].
  - rewrite lookup_insert_eq. simpl.
    destruct (decide (h = url.Hostname x)) as [->|Hh].
    + rewrite lookup_insert_eq. by rewrite decide_True.
    + rewrite lookup_insert_ne by done. rewrite decide_False by (by intros [? ?]).
      by destruct (pools st !! PI_of d).
  - rewrite lookup_insert_ne by done. by rewrite decide_False by (by intros [? ?]).
Qed.

Lemma getInfra_disk_view_at st d st' x PI h SI :
  getInfra_disk url_Parse b st d = Some st' →
  url_Parse (madmin.Endpoint d) = Some x →
  PI ≠ PI_of d ∨ h ≠ url.Hostname x ∨ SI ≠ SI_of d →
  view_at (pools st') PI h SI = view_at (pools st) PI h SI.
Proof.
  intros Hst Hx Hne. unfold view_at.
  rewrite (getInfra_disk_server_at _ _ _ _ _ _ Hst Hx).
  case_decide as Heq; [|done]. destruct Heq as [-> ->].
  destruct Hne as [?|[?|HSI]]; [done..|].
  unfold next_Server. simpl. rewrite lookup_insert_ne by done.
  by destruct (server_at (pools st) (PI_of d) (url.Hostname x)).
Qed.

Lemma getInfra_disk_seti st d st' PI SI :
  getInfra_disk url_Parse b st d = Some st' →
  default ∅ (setInfo st' !! PI) !! Itoa SI
  = if decide (PI = PI_of d ∧ SI = SI_of d)
    then Some (next_seti b st d) else default ∅ (setInfo st !! PI) !! Itoa SI.
Proof.
  intros (x & _ & _ & -> & _)%getInfra_disk_Some.
  destruct (decide (PI = PI_of d)) as [->|HPI].
  - rewrite lookup_insert_eq. simpl.
    destruct (decide (SI = SI_of d)) as [->|HSI].
    + rewrite lookup_insert_eq. by rewrite decide_True.
    + rewrite lookup_insert_ne by (by intros ?%Itoa_inj).
      by rewrite decide_False by (by intros [? ?]).
  - rewrite lookup_insert_ne by done. by rewrite decide_False by (by intros [? ?]).
Qed.

Lemma getInfra_disks_snoc st ds d st' :
  getInfra_disks url_Parse b st (ds ++ [d]) = Some st' →
  ∃ st0, getInfra_disks url_Parse b st ds = Some st0
         ∧ getInfra_disk url_Parse b st0 d = Some st'.
Proof.
  unfold getInfra_disks. rewrite foldl_opt_snoc.
  destruct (foldl_opt _ st ds) as [st0|]; [|done]. simpl. eauto.
Qed.

Lemma bad_count_snoc PI SI ds d :
  bad_count PI SI (ds ++ [d])
  = bad_count PI SI ds + if decide (bad_disk PI SI d) then 1 else 0.
Proof.
  unfold bad_count. rewrite filter_app, length_app, filter_cons, filter_nil.
  case_decide; simpl; lia.
Qed.

Lemma bad_count_bounds PI SI ds :
  0 ≤ bad_count PI SI ds ≤ Z.of_nat (length ds).
Proof.
  unfold bad_count. pose proof (length_filter (bad_disk PI SI) ds). lia.
Qed.

(** The side index counts the records that are not ["ok"]. *)
Lemma getInfra_disks_seti ds st PI SI :
  getInfra_disks url_Parse b (mkInfra ∅ ∅ 0) ds = Some st →
  from_option Set_.BadDisks 0 (default ∅ (setInfo st !! PI) !! Itoa SI)
  = wrap (bad_count PI SI ds)
  ∧ ∀ seti, default ∅ (setInfo st !! PI) !! Itoa SI = Some seti →
            Set_.SCParity seti = madmin.StandardSCParity b.
Proof.
  revert st. induction ds as [|d ds IH] using rev_ind; intros st Hst.
  - injection Hst as <-. simpl. rewrite lookup_empty. simpl.
    rewrite lookup_empty. done.
  - apply getInfra_disks_snoc in Hst as (st0 & Hst0 & Hd).
    destruct (IH _ Hst0) as [IHc IHp].
    rewrite (getInfra_disk_seti _ _ _ _ _ Hd), bad_count_snoc.
    destruct (decide (PI = PI_of d ∧ SI = SI_of d)) as [[-> ->]|Hne].
    + unfold next_seti.
      destruct (default ∅ (setInfo st0 !! PI_of d) !! Itoa (SI_of d))
        as [seti|] eqn:Eseti; simpl in *.
      * specialize (IHp _ eq_refl). split.
        -- case_bool_decide as Hbad.
           ++ rewrite decide_True by done. simpl.
              unfold int_add. by rewrite IHc, wrap_wrap_add.
           ++ rewrite decide_False by (by intros (_ & _ & ?)).
              by rewrite Z.add_0_r.
        -- intros seti' [= <-]. by case_bool_decide.
      * split.
        -- case_bool_decide as Hbad.
           ++ rewrite decide_True by done. simpl.
              unfold int_add. by rewrite IHc, wrap_wrap_add.
           ++ rewrite decide_False by (by intros (_ & _ & ?)).
              by rewrite Z.add_0_r.
        -- intros seti' [= <-]. by case_bool_decide.
    + rewrite decide_False, Z.add_0_r; [done|].
      intros (? & ? & _). by apply Hne.
Qed.

(** Servers and views are filed under their own names, and every view has
    an entry in the side index. *)
Lemma getInfra_disks_server_ok ds st PI h s :
  getInfra_disks url_Parse b (mkInfra ∅ ∅ 0) ds = Some st →
  server_at (pools st) PI h = Some s →
  server_ok b PI h s
  ∧ ∀ SI, is_Some (Server.Sets s !! SI) →
          is_Some (default ∅ (setInfo st !! PI) !! Itoa SI).
Proof.
  revert st s. induction ds as [|d ds IH] using rev_ind; intros st s Hst Hs.
  - injection Hst as <-. unfold server_at in Hs. simpl in Hs.
    by rewrite lookup_empty in Hs.
  - apply getInfra_disks_snoc in Hst as (st0 & Hst0 & Hd).
    destruct (getInfra_disk_Some _ _ _ Hd) as (x & Hx & _).
    rewrite (getInfra_disk_server_at _ _ _ _ _ _ Hd Hx) in Hs.
    assert (∀ SI, is_Some (default ∅ (setInfo st0 !! PI) !! Itoa SI) →
                  is_Some (default ∅ (setInfo st !! PI) !! Itoa SI)) as Hmono.
    { intros SI HSI. rewrite (getInfra_disk_seti _ _ _ _ _ Hd).
      destruct (decide (PI = PI_of d ∧ SI = SI_of d)); [by eexists|done]. }
    case_decide as Heq.
    + destruct Heq as [-> ->]. injection Hs as <-.
      unfold next_Server.
      destruct (server_at (pools st0) (PI_of d) (url.Hostname x)) as [s0|] eqn:Es0;
        unfold server_ok; simpl; unrecord.
      * destruct (IH _ _ Hst0 Es0) as [(HE & HP & Hv) Hsi].
        split; [split_and!; [done..|]|].
        -- intros SI v. destruct (decide (SI = SI_of d)) as [->|HSI].
           ++ rewrite lookup_insert_eq. intros [= <-].
              destruct (Server.Sets s0 !! SI_of d) as [v0|] eqn:Ev0; simpl.
              ** specialize (Hv _ _ Ev0). unfold view_ok in *. by simpl.
              ** unfold view_ok. simpl. split_and!; try done;
                   apply wrap_is_int.
           ++ rewrite lookup_insert_ne by done. apply Hv.
        -- intros SI. destruct (decide (SI = SI_of d)) as [->|HSI].
           ++ intros _. rewrite (getInfra_disk_seti _ _ _ _ _ Hd).
              by rewrite decide_True.
           ++ rewrite lookup_insert_ne by done. intros ?. by apply Hmono, Hsi.
      * split; [split_and!; [done..|]|].
        -- intros SI v. destruct (decide (SI = SI_of d)) as [->|HSI].
           ++ rewrite lookup_insert_eq. intros [= <-].
              unfold view_ok. simpl. split_and!; try done; apply wrap_is_int.
           ++ rewrite lookup_insert_ne, lookup_empty by done. done.
        -- intros SI. destruct (decide (SI = SI_of d)) as [->|HSI].
           ++ intros _. rewrite (getInfra_disk_seti _ _ _ _ _ Hd).
              by rewrite decide_True.
           ++ rewrite lookup_insert_ne, lookup_empty by done.
              by intros [? ?].
    + destruct (IH _ _ Hst0 Hs) as [Hok Hsi]. split; [done|].
      intros SI HSI. by apply Hmono, Hsi.
Qed.

Lemma elem_of_server_keys ps PI h :
  (PI, h) ∈ server_keys ps ↔ is_Some (server_at ps PI h).
Proof.
  unfold server_keys, server_at. rewrite elem_of_list_to_set, list_elem_of_bind.
  split.
  - intros ([PI' v] & Hin & Hv%elem_of_map_to_list). simpl in Hin.
    apply list_elem_of_fmap in Hin as (h' & [= -> ->] & Hh).
    apply list_elem_of_fmap in Hh as ([h'' s] & -> & Hs%elem_of_map_to_list).
    rewrite Hv. simpl. by exists s.
  - intros [s Hs]. destruct (ps !! PI) as [v|] eqn:Hv; [|done]. simpl in Hs.
    exists (PI, v). split; [|by apply elem_of_map_to_list]. simpl.
    apply list_elem_of_fmap. exists h. split; [done|].
    apply list_elem_of_fmap. exists (h, s). split; [done|].
    by apply elem_of_map_to_list.
Qed.

(** The counter of servers counts the servers. *)
Lemma getInfra_disks_totalServers ds st :
  getInfra_disks url_Parse b (mkInfra ∅ ∅ 0) ds = Some st →
  totalServers st = wrap (Z.of_nat (size (server_keys (pools st))))
  ∧ (size (server_keys (pools st)) ≤ length ds)%nat.
Proof.
  revert st. induction ds as [|d ds IH] using rev_ind; intros st Hst.
  - injection Hst as <-. simpl. done.
  - apply getInfra_disks_snoc in Hst as (st0 & Hst0 & Hd).
    destruct (IH _ Hst0) as [IHt IHn].
    destruct (getInfra_disk_Some _ _ _ Hd) as (x & Hx & _ & _ & Ht).
    rewrite length_app. simpl.
    destruct (server_at (pools st0) (PI_of d) (url.Hostname x)) as [s0|] eqn:Hs0.
    + assert (server_keys (pools st) = server_keys (pools st0)) as ->.
      { apply set_eq. intros [PI h]. rewrite !elem_of_server_keys.
        rewrite (getInfra_disk_server_at _ _ _ _ _ _ Hd Hx).
        case_decide as Heq; [|done]. destruct Heq as [-> ->].
        rewrite Hs0. split; by eexists. }
      split; [congruence|lia].
    + assert (server_keys (pools st)
              = {[(PI_of d, url.Hostname x)]} ∪ server_keys (pools st0)) as ->.
      { apply set_eq. intros [PI h].
        rewrite elem_of_union, elem_of_singleton, !elem_of_server_keys.
        rewrite (getInfra_disk_server_at _ _ _ _ _ _ Hd Hx).
        case_decide as Heq.
        - destruct Heq as [-> ->]. split; [by left|by eexists].
        - split; [by right|]. intros [[= -> ->]|?]; [|done]. by destruct Heq. }
      rewrite size_union, size_singleton.
      * split; [|lia]. rewrite Ht, IHt. unfold int_add. rewrite wrap_wrap_add.
        f_equal. lia.
      * apply disjoint_singleton_l. rewrite elem_of_server_keys, Hs0.
        by intros [? ?].
Qed.

Lemma getInfra_disks_pool_keys ds st PI :
  getInfra_disks url_Parse b (mkInfra ∅ ∅ 0) ds = Some st →
  is_Some (pools st !! PI) → ∃ z, is_int z ∧ PI = Itoa z.
Proof.
  revert st. induction ds as [|d ds IH] using rev_ind; intros st Hst.
  - injection Hst as <-. simpl. rewrite lookup_empty. by intros [? ?].
  - apply getInfra_disks_snoc in Hst as (st0 & Hst0 & Hd).
    destruct (getInfra_disk_Some _ _ _ Hd) as (x & _ & -> & _).
    destruct (decide (PI = PI_of d)) as [->|Hne].
    + intros _. eexists. split; [|done]. apply wrap_is_int.
    + rewrite lookup_insert_ne by done. by apply IH.
Qed.

(** The disks of a view: one per endpoint, made from the last record filed
    under that endpoint. *)
Lemma getInfra_disks_disk_at ds st PI h SI e :
  getInfra_disks url_Parse b (mkInfra ∅ ∅ 0) ds = Some st →
  disk_at (pools st) PI h SI e
  = last (filter (filed_at url_Parse PI h SI e) ds) ≫= Disk_of url_Parse.
Proof.
  revert st. induction ds as [|d ds IH] using rev_ind; intros st Hst.
  - injection Hst as <-. unfold disk_at, view_at, server_at. simpl.
    by rewrite lookup_empty.
  - apply getInfra_disks_snoc in Hst as (st0 & Hst0 & Hd).
    destruct (getInfra_disk_Some _ _ _ Hd) as (x & Hx & _).
    specialize (IH _ Hst0). rewrite filter_app, filter_cons, filter_nil.
    destruct (decide (filed_at url_Parse PI h SI e d)) as [Hf|Hf].
    + rewrite last_snoc. simpl. unfold Disk_of. rewrite Hx. simpl.
      destruct Hf as (<- & Hh & <- & <-). rewrite Hx in Hh. injection Hh as <-.
      unfold disk_at, view_at.
      rewrite (getInfra_disk_server_at _ _ _ _ _ _ Hd Hx), decide_True by done.
      simpl. unfold next_Server. unrecord. rewrite lookup_insert_eq. simpl.
      by rewrite lookup_insert_eq.
    + rewrite app_nil_r, <- IH. unfold disk_at.
      destruct (decide (PI = PI_of d ∧ h = url.Hostname x ∧ SI = SI_of d))
        as [(-> & -> & ->)|Hne].
      * assert (e ≠ madmin.Endpoint d) as He.
        { intros ->. apply Hf. unfold filed_at. by rewrite Hx. }
        unfold view_at.
        rewrite (getInfra_disk_server_at _ _ _ _ _ _ Hd Hx), decide_True by done.
        simpl. unfold next_Server. unrecord. rewrite lookup_insert_eq. simpl.
        rewrite lookup_insert_ne by done.
        destruct (server_at (pools st0) (PI_of d) (url.Hostname x)) as [s0|];
          simpl; [|done].
        by destruct (Server.Sets s0 !! SI_of d).
      * rewrite (getInfra_disk_view_at _ _ _ _ _ _ _ Hd Hx); [done|].
        destruct (decide (PI = PI_of d)); [|by left].
        destruct (decide (h = url.Hostname x)); [|by right; left].
        destruct (decide (SI = SI_of d)); [|by right; right].
        by destruct Hne.
Qed.

End FirstPass.

(** ** The topology returned by [getInfra] *)

Section Infra.

Variable url_Parse : string → option url.URL.
Variable order : ∀ A : Type, list A → list A.
Hypothesis order_perm : order_ok order.

Lemma getInfra_Some info ps total :
  getInfra url_Parse order info = Some (ps, total) →
  ∃ st, getInfra_disks url_Parse (madmin.Backend info) (mkInfra ∅ ∅ 0)
          (madmin.Disks info) = Some st
        ∧ ps = getInfra_pools order (setInfo st) (pools st)
        ∧ total = totalServers st.
Proof.
  unfold getInfra. destruct (getInfra_disks _ _ _ _) as [st|]; [|done].
  intros [= <- <-]. by exists st.
Qed.

(** What the second pass writes into every view. *)
Lemma getInfra_view_at info ps total PI h SI v :
  getInfra url_Parse order info = Some (ps, total) →
  view_at ps PI h SI = Some v →
  let bad := wrap (bad_count PI SI (madmin.Disks info)) in
  let parity := madmin.StandardSCParity (madmin.Backend info) in
  Set_.BadDisks v = bad
  ∧ Set_.CanReboot v = negb (bad >=? int_sub parity 1)
  ∧ view_ok (madmin.Backend info) PI SI v.
Proof.
  intros (st & Hst & -> & _)%getInfra_Some Hv.
  rewrite (getInfra_pools_view_at order order_perm) in Hv.
  destruct (view_at (pools st) PI h SI) as [v0|] eqn:Hv0; [|done].
  injection Hv as <-. unfold view_at in Hv0.
  destruct (server_at (pools st) PI h) as [s|] eqn:Hs; [|done]. simpl in Hv0.
  destruct (getInfra_disks_server_ok _ _ _ _ _ _ _ Hst Hs) as [(_ & _ & Hok) Hsi].
  destruct (Hsi SI) as [seti Hseti]; [by eexists|].
  destruct (getInfra_disks_seti _ _ _ _ PI SI Hst) as [Hc Hp].
  rewrite Hseti in Hc. simpl in Hc. specialize (Hp _ Hseti).
  specialize (Hok _ _ Hv0). unfold getInfra_view. rewrite Hseti, Hc, Hp.
  unfold view_ok in *. by destruct (_ >=? _).
Qed.

Lemma getInfra_disk_at info ps total PI h SI e :
  getInfra url_Parse order info = Some (ps, total) →
  disk_at ps PI h SI e
  = last (filter (filed_at url_Parse PI h SI e) (madmin.Disks info))
    ≫= Disk_of url_Parse.
Proof.
  intros (st & Hst & -> & _)%getInfra_Some.
  rewrite <- (getInfra_disks_disk_at _ _ _ _ _ _ _ _ Hst).
  unfold disk_at. rewrite (getInfra_pools_view_at order order_perm).
  destruct (view_at (pools st) PI h SI) as [v0|]; [|done]. simpl.
  unfold getInfra_view. destruct (_ !! Itoa SI); [|done].
  by destruct (_ >=? _).
Qed.

Lemma getInfra_totalServers info ps total :
  Z.of_nat (length (madmin.Disks info)) ≤ int_max →
  getInfra url_Parse order info = Some (ps, total) →
  total = Z.of_nat (size (server_keys ps)) ∧ total ≤ int_max.
Proof.
  intros Hlen (st & Hst & -> & ->)%getInfra_Some.
  destruct (getInfra_disks_totalServers _ _ _ _ Hst) as [Ht Hn].
  assert (server_keys (getInfra_pools order (setInfo st) (pools st))
          = server_keys (pools st)) as ->.
  { apply set_eq. intros [PI h]. rewrite !elem_of_server_keys.
    rewrite (getInfra_pools_server_at order order_perm). apply fmap_is_Some. }
  rewrite Ht, wrap_id; [lia|]. unfold is_int, int_min, int_max in *. lia.
Qed.

Lemma getInfra_view_ok b si PI SI v :
  view_ok b PI SI v → view_ok b PI SI (getInfra_view si PI SI v).
Proof.
  unfold getInfra_view, view_ok. destruct (_ !! Itoa SI); [|done].
  by destruct (_ >=? _).
Qed.

Lemma getInfra_topology_ok info ps total :
  getInfra url_Parse order info = Some (ps, total) →
  topology_ok (madmin.Backend info) ps.
Proof.
  intros (st & Hst & -> & _)%getInfra_Some. split.
  - intros PI h s. rewrite (getInfra_pools_server_at order order_perm).
    destruct (server_at (pools st) PI h) as [s0|] eqn:Hs0; [|done].
    intros [= <-].
    destruct (getInfra_disks_server_ok _ _ _ _ _ _ _ Hst Hs0) as [(HE & HP & Hv) _].
    split_and!; [done..|]. intros SI v.
    rewrite (getInfra_sets_lookup order order_perm).
    destruct (Server.Sets s0 !! SI) as [v0|] eqn:Hv0; [|done].
    intros [= <-]. by apply getInfra_view_ok, Hv.
  - intros PI. rewrite (getInfra_pools_lookup order order_perm), fmap_is_Some.
    by apply (getInfra_disks_pool_keys _ _ _ _ _ Hst).
Qed.

End Infra.

(** C2 — CanReboot threshold.  After [getInfra], every view of a set
    carries as [BadDisks] the count accumulated over the whole input (the
    number of disk records of that pool and set, on whichever server, whose
    state is not ["ok"]) and as [SCParity] the standard parity of the
    backend, and it has [CanReboot = true] exactly when that count is
    strictly less than the parity minus 1; with parity 2, no bad record
    gives [true] and one bad record gives [false].  The number of records
    is an [int], as the length of a slice is, and the parity is an [int]
    other than the least one, so that [SCParity - 1] does not wrap
    around. *)
Theorem C2_CanReboot_threshold url_Parse order info ps total PI h SI v :
  order_ok order →
  Z.of_nat (length (madmin.Disks info)) ≤ int_max →
  int_min < madmin.StandardSCParity (madmin.Backend info) ≤ int_max →
  getInfra url_Parse order info = Some (ps, total) →
  view_at ps PI h SI = Some v →
  let bad := bad_count PI SI (madmin.Disks info) in
  let parity := madmin.StandardSCParity (madmin.Backend info) in
  Set_.BadDisks v = bad
  ∧ Set_.SCParity v = parity
  ∧ (Set_.CanReboot v = true ↔ bad < parity - 1)
  ∧ (Set_.CanReboot v = true ↔ Set_.BadDisks v < Set_.SCParity v - 1)
  ∧ (parity = 2 → bad = 0 → Set_.CanReboot v = true)
  ∧ (parity = 2 → bad = 1 → Set_.CanReboot v = false).
Proof.
  intros Hord Hlen Hpar Hinfra Hv bad parity.
  destruct (getInfra_view_at _ _ Hord _ _ _ _ _ _ _ Hinfra Hv)
    as (Hbad & Hcan & (_ & _ & _ & _ & Hp)).
  fold parity in Hcan, Hp. fold bad in Hbad, Hcan.
  assert (wrap bad = bad) as Hwrap.
  { apply wrap_id. pose proof (bad_count_bounds PI SI (madmin.Disks info)).
    fold bad in H. unfold is_int, int_min, int_max in *. lia. }
  assert (int_sub parity 1 = parity - 1) as Hsub.
  { unfold int_sub. apply wrap_id. subst parity.
    unfold is_int, int_min, int_max in *. lia. }
  rewrite Hwrap in Hbad, Hcan. rewrite Hsub in Hcan.
  assert (Set_.CanReboot v = true ↔ bad < parity - 1) as Hiff.
  { rewrite Hcan. destruct (Z.geb_spec bad (parity - 1));
      simpl; split; (done || lia). }
  split_and!; [done..| | |].
  - by rewrite Hbad, Hp.
  - intros H2 H0. apply Hiff. lia.
  - intros H2 H1. apply not_true_is_false. rewrite Hiff. lia.
Qed.

(** C3 — Global set-view agreement.  After [getInfra], all views of one set
    (the views found under the same pool key and set id, on whichever
    servers) carry the same [BadDisks] and the same [CanReboot], and that
    [BadDisks] is the number of input disk records of the set whose state is
    not ["ok"], over all servers.  The number of records is an [int], as
    the length of a slice is. *)
Theorem C3_global_set_view_agreement url_Parse order info ps total PI SI h1 h2 v1 v2 :
  order_ok order →
  Z.of_nat (length (madmin.Disks info)) ≤ int_max →
  getInfra url_Parse order info = Some (ps, total) →
  view_at ps PI h1 SI = Some v1 →
  view_at ps PI h2 SI = Some v2 →
  Set_.BadDisks v1 = Set_.BadDisks v2
  ∧ Set_.CanReboot v1 = Set_.CanReboot v2
  ∧ Set_.BadDisks v1 = bad_count PI SI (madmin.Disks info).
Proof.
  intros Hord Hlen Hinfra Hv1 Hv2.
  destruct (getInfra_view_at _ _ Hord _ _ _ _ _ _ _ Hinfra Hv1) as (Hb1 & Hc1 & _).
  destruct (getInfra_view_at _ _ Hord _ _ _ _ _ _ _ Hinfra Hv2) as (Hb2 & Hc2 & _).
  split_and!; [congruence..|].
  rewrite Hb1. apply wrap_id.
  pose proof (bad_count_bounds PI SI (madmin.Disks info)).
  unfold is_int, int_min, int_max in *. lia.
Qed.

(** C10 — Disk deduplication by endpoint.  In every view built by
    [getInfra] the disks are keyed by the endpoint string of their record:
    under an endpoint there is at most one [Disk], the one made from the
    last input record of that pool, server and set with that endpoint (a
    later record overwrites an earlier one), while [BadDisks] of the view
    counts every record of the set that is not ["ok"], the overwritten ones
    included. *)
Theorem C10_disk_dedup_by_endpoint url_Parse order info ps total :
  order_ok order →
  Z.of_nat (length (madmin.Disks info)) ≤ int_max →
  getInfra url_Parse order info = Some (ps, total) →
  (∀ PI h SI e,
     disk_at ps PI h SI e
     = last (filter (filed_at url_Parse PI h SI e) (madmin.Disks info))
       ≫= Disk_of url_Parse)
  ∧ (∀ PI h SI v,
       view_at ps PI h SI = Some v →
       Set_.BadDisks v = bad_count PI SI (madmin.Disks info)).
Proof.
  intros Hord Hlen Hinfra. split.
  - intros PI h SI e. by apply (getInfra_disk_at _ _ Hord _ _ total).
  - intros PI h SI v Hv.
    destruct (getInfra_view_at _ _ Hord _ _ _ _ _ _ _ Hinfra Hv) as (Hb & _).
    rewrite Hb. apply wrap_id.
    pose proof (bad_count_bounds PI SI (madmin.Disks info)).
    unfold is_int, int_min, int_max in *. lia.
Qed.

(** ** The scheduler does not depend on the order of map iteration *)

Section Orders.

Variable order : ∀ A : Type, list A → list A.
Hypothesis order_perm : order_ok order.

Lemma areAllSetsOK_healthy s : areAllSetsOK order s = true ↔ healthy s.
Proof.
  unfold areAllSetsOK, healthy. rewrite forallb_True. split.
  - intros Hall k v Hk. apply (Hall (k, v)). by apply elem_of_range.
  - intros Hall [k v] Hin. apply elem_of_range in Hin; [|done]. by apply (Hall k).
Qed.

Lemma haveMatchingSets_conflict s1 s2 :
  haveMatchingSets order s1 s2 = true ↔ conflict s1 s2.
Proof.
  unfold haveMatchingSets, conflict. rewrite existsb_True. split.
  - intros ([k v] & Hin & Hk). apply elem_of_range in Hin; [|done].
    apply bool_decide_eq_true in Hk. exists k. split; [by exists v|done].
  - intros (k & [v Hv] & Hk). exists (k, v). split.
    + by apply elem_of_range.
    + by apply bool_decide_eq_true.
Qed.

Lemma conflict_sym s1 s2 : conflict s1 s2 → conflict s2 s1.
Proof. intros (k & ? & ?). by exists k. Qed.

Lemma round_conflict (round : gmap string Server.t) s :
  existsb (λ kv : string * Server.t, haveMatchingSets order kv.2 s)
    (range order round) = true
  ↔ ∃ e rv, round !! e = Some rv ∧ conflict rv s.
Proof.
  rewrite existsb_True. split.
  - intros ([e rv] & Hin & Hc). apply elem_of_range in Hin; [|done].
    apply haveMatchingSets_conflict in Hc. by exists e, rv.
  - intros (e & rv & He & Hc). exists (e, rv). split.
    + by apply elem_of_range.
    + by apply haveMatchingSets_conflict.
Qed.

Lemma elem_of_stringKeysSorted {V} (m : gmap string V) k :
  k ∈ stringKeysSorted order m ↔ is_Some (m !! k).
Proof.
  unfold stringKeysSorted. rewrite elem_of_sort_Strings.
  by apply elem_of_range_keys.
Qed.

Lemma NoDup_stringKeysSorted {V} (m : gmap string V) :
  NoDup (stringKeysSorted order m).
Proof.
  unfold stringKeysSorted. rewrite sort_Strings_Permutation.
  unfold range. rewrite (order_perm _ (map_to_list m)).
  apply NoDup_fst_map_to_list.
Qed.

End Orders.

Lemma bool_eq_iff (b1 b2 : bool) : (b1 = true ↔ b2 = true) → b1 = b2.
Proof. destruct b1, b2; intuition congruence. Qed.

Section TwoOrders.

Variables order1 order2 : ∀ A : Type, list A → list A.
Hypothesis order1_perm : order_ok order1.
Hypothesis order2_perm : order_ok order2.

Lemma range_order `{Countable K} {V} (m : gmap K V) :
  range order1 m ≡ₚ range order2 m.
Proof. unfold range. by rewrite (order1_perm _ _), (order2_perm _ _). Qed.

Lemma areAllSetsOK_order s : areAllSetsOK order1 s = areAllSetsOK order2 s.
Proof. apply forallb_Permutation, range_order. Qed.

Lemma haveMatchingSets_order s1 s2 :
  haveMatchingSets order1 s1 s2 = haveMatchingSets order2 s1 s2.
Proof. apply existsb_Permutation, range_order. Qed.

Lemma stringKeysSorted_order {V} (m : gmap string V) :
  stringKeysSorted order1 m = stringKeysSorted order2 m.
Proof. apply sort_Strings_unique. by rewrite range_order. Qed.

Lemma getInfra_sets_order si i vv :
  getInfra_sets order1 si i vv = getInfra_sets order2 si i vv.
Proof.
  unfold getInfra_sets. f_equal. apply map_eq. intros k.
  pose proof (getInfra_sets_lookup order1 order1_perm si i vv k) as H1.
  pose proof (getInfra_sets_lookup order2 order2_perm si i vv k) as H2.
  unfold getInfra_sets in H1, H2. unrecord. by rewrite H1, H2.
Qed.

Lemma getInfra_servers_order si i v :
  getInfra_servers order1 si i v = getInfra_servers order2 si i v.
Proof.
  pose proof (getInfra_servers_lookup order1 order1_perm si i v) as H1.
  pose proof (getInfra_servers_lookup order2 order2_perm si i v) as H2.
  unfold getInfra_servers in *. f_equal. apply map_eq. intros h.
  unrecord. rewrite H1, H2. destruct (Pool.Servers v !! h); [|done].
  simpl. by rewrite getInfra_sets_order.
Qed.

Lemma getInfra_pools_order si ps :
  getInfra_pools order1 si ps = getInfra_pools order2 si ps.
Proof.
  apply map_eq. intros i.
  rewrite (getInfra_pools_lookup order1 order1_perm),
    (getInfra_pools_lookup order2 order2_perm).
  destruct (ps !! i); [|done]. simpl. by rewrite getInfra_servers_order.
Qed.

Lemma getInfra_order url_Parse info :
  getInfra url_Parse order1 info = getInfra url_Parse order2 info.
Proof.
  unfold getInfra. destruct (getInfra_disks _ _ _ _); [|done].
  by rewrite getInfra_pools_order.
Qed.

Lemma foldl_opt_ext {A B} (f g : B → A → option B) b l :
  (∀ b a, f b a = g b a) → foldl_opt f b l = foldl_opt g b l.
Proof.
  intros Hfg. revert b. induction l as [|a l IH]; intros b; simpl; [done|].
  rewrite Hfg. destruct (g b a); [apply IH|done].
Qed.

Lemma makeHostfile_server_order i pid pkey st skey :
  makeHostfile_server order1 i pid pkey st skey
  = makeHostfile_server order2 i pid pkey st skey.
Proof.
  unfold makeHostfile_server.
  destruct (sched_pools st !! pkey ≫= _) as [s|]; [|done].
  rewrite areAllSetsOK_order.
  assert (existsb (λ kv : string * Server.t, haveMatchingSets order1 kv.2 s)
            (range order1 (default ∅ (rebootRounds st !! (i, pid))))
          = existsb (λ kv : string * Server.t, haveMatchingSets order2 kv.2 s)
              (range order2 (default ∅ (rebootRounds st !! (i, pid))))) as ->.
  { apply bool_eq_iff. by rewrite !round_conflict. }
  done.
Qed.

Lemma makeHostfile_pool_order i st pkey :
  makeHostfile_pool order1 i st pkey = makeHostfile_pool order2 i st pkey.
Proof.
  unfold makeHostfile_pool. destruct (Atoi pkey) as [pid|]; [|done].
  case_bool_decide; [|done]. destruct (sched_pools st !! pkey) as [v|]; [|done].
  rewrite stringKeysSorted_order. apply foldl_opt_ext.
  intros. apply makeHostfile_server_order.
Qed.

Lemma makeHostfile_rounds_order total poolss rounds st :
  makeHostfile_rounds order1 total poolss rounds st
  = makeHostfile_rounds order2 total poolss rounds st.
Proof.
  revert st. induction rounds as [|i rounds IH]; intros st; simpl; [done|].
  destruct (_ >=? _); [done|].
  rewrite (foldl_opt_ext _ (makeHostfile_pool order2 i))
    by (intros; apply makeHostfile_pool_order).
  destruct (foldl_opt _ st poolss); [apply IH|done].
Qed.

Lemma write_round_order st ri : write_round order1 st ri = write_round order2 st ri.
Proof.
  unfold write_round. f_equal. apply list_fmap_ext. intros _ pid _.
  by rewrite stringKeysSorted_order.
Qed.

Lemma write_failure_order st : write_failure order1 st ≡ₚ write_failure order2 st.
Proof. unfold write_failure. by rewrite range_order. Qed.

End TwoOrders.

(** ** One iteration of the server loop *)

Lemma mark_Processed_pool pkey skey ps PI :
  is_Some (mark_Processed pkey skey ps !! PI) ↔ is_Some (ps !! PI).
Proof.
  unfold mark_Processed. destruct (decide (PI = pkey)) as [->|Hne].
  - rewrite lookup_alter_eq. apply fmap_is_Some.
  - by rewrite lookup_alter_ne.
Qed.

Lemma mark_Processed_server_at pkey skey ps PI h :
  server_at (mark_Processed pkey skey ps) PI h
  = (if decide (PI = pkey ∧ h = skey) then Server.with_Processed true else id)
    <$> server_at ps PI h.
Proof.
  unfold server_at, mark_Processed. destruct (decide (PI = pkey)) as [->|HPI].
  - rewrite lookup_alter_eq. destruct (ps !! pkey) as [v|]; [|done]. simpl.
    destruct (decide (h = skey)) as [->|Hh].
    + rewrite lookup_alter_eq, decide_True by done. done.
    + rewrite lookup_alter_ne, decide_False by first [done | by intros [? ?]].
      by destruct (Pool.Servers v !! h).
  - rewrite lookup_alter_ne, decide_False by first [done | by intros [? ?]].
    by destruct (ps !! PI ≫= _).
Qed.

Section ServerStep.

Variable order : ∀ A : Type, list A → list A.
Hypothesis order_perm : order_ok order.

(** The four outcomes of one iteration of the loop [nextServer]. *)
Lemma makeHostfile_server_cases i pid pkey st skey st' :
  makeHostfile_server order i pid pkey st skey = Some st' →
  ∃ s, server_at (sched_pools st) pkey skey = Some s ∧
    ((Server.Processed s = true ∧ st' = st)
     ∨ (Server.Processed s = false ∧ ¬ healthy s
        ∧ st' = mkSched (sched_pools st) (rebootRounds st)
                  (<[Server.Endpoint s := s]> (unhealthy st)) (processed st))
     ∨ (Server.Processed s = false ∧ healthy s
        ∧ (is_Some (placed st i pid (Server.Endpoint s))
           ∨ ∃ e rv, placed st i pid e = Some rv ∧ conflict rv s)
        ∧ st' = st)
     ∨ (Server.Processed s = false ∧ healthy s
        ∧ placed st i pid (Server.Endpoint s) = None
        ∧ (∀ e rv, placed st i pid e = Some rv → ¬ conflict rv s)
        ∧ st' = mkSched (mark_Processed pkey skey (sched_pools st))
                  (<[(i, pid) :=
                       <[Server.Endpoint s := Server.with_Processed true s]>
                         (default ∅ (rebootRounds st !! (i, pid)))]>
                     (rebootRounds st))
                  (unhealthy st) (int_add (processed st) 1))).
Proof.
  unfold makeHostfile_server, placed. fold (server_at (sched_pools st) pkey skey).
  destruct (server_at (sched_pools st) pkey skey) as [s|]; [|done].
  intros Hst. exists s. split; [done|].
  destruct (Server.Processed s) eqn:Hp.
  { left. split; [done|]. by injection Hst. }
  right. destruct (areAllSetsOK order s) eqn:Hok; simpl in Hst.
  - apply (areAllSetsOK_healthy order order_perm) in Hok. right.
    destruct (default ∅ (rebootRounds st !! (i, pid)) !! Server.Endpoint s)
      as [rv|] eqn:Hrv.
    { left. split_and!; [done..| |by injection Hst]. left. by exists rv. }
    destruct (existsb _ _) eqn:Hex.
    + left. split_and!; [done..| |by injection Hst]. right.
      by apply (round_conflict order order_perm) in Hex.
    + right. split_and!; [done..| |by injection Hst].
      intros e rv He Hc. apply not_true_iff_false in Hex. apply Hex.
      apply (round_conflict order order_perm). by exists e, rv.
  - left. split; [done|]. split; [|by injection Hst].
    rewrite <- (areAllSetsOK_healthy order order_perm). by rewrite Hok.
Qed.

End ServerStep.

Lemma placed_insert st i pid e s ps u n i' pid' e' :
  placed (mkSched ps
            (<[(i, pid) := <[e := s]> (default ∅ (rebootRounds st !! (i, pid)))]>
               (rebootRounds st)) u n) i' pid' e'
  = if decide (i' = i ∧ pid' = pid ∧ e' = e) then Some s else placed st i' pid' e'.
Proof.
  unfold placed. simpl. destruct (decide ((i', pid') = (i, pid))) as [[= -> ->]|Hne].
  - rewrite lookup_insert_eq. simpl. destruct (decide (e' = e)) as [->|He].
    + by rewrite lookup_insert_eq, decide_True.
    + rewrite lookup_insert_ne by done.
      by rewrite decide_False by (by intros (_ & _ & ?)).
  - rewrite lookup_insert_ne by done. rewrite decide_False; [done|].
    intros (-> & -> & _). by apply Hne.
Qed.

Lemma sched_le_refl st : sched_le st st.
Proof. by split. Qed.

Lemma sched_le_trans st1 st2 st3 :
  sched_le st1 st2 → sched_le st2 st3 → sched_le st1 st3.
Proof. intros [H1 H2] [H3 H4]. split; eauto. Qed.

Lemma topology_ok_key_inj b ps0 PI PI' pid :
  topology_ok b ps0 → is_Some (ps0 !! PI) → is_Some (ps0 !! PI') →
  Atoi PI = Some pid → Atoi PI' = Some pid → PI = PI'.
Proof.
  intros [_ Hkeys] (z & Hz & ->)%Hkeys (z' & Hz' & ->)%Hkeys.
  rewrite !Atoi_Itoa by done. congruence.
Qed.

Lemma server_at_pool ps PI h s : server_at ps PI h = Some s → is_Some (ps !! PI).
Proof. unfold server_at. by destruct (ps !! PI). Qed.

Lemma conflict_with_Processed_l s1 s2 bb :
  conflict (Server.with_Processed bb s1) s2 ↔ conflict s1 s2.
Proof. done. Qed.

Lemma conflict_with_Processed_r s1 s2 bb :
  conflict s1 (Server.with_Processed bb s2) ↔ conflict s1 s2.
Proof. done. Qed.

Lemma grows_refl P st i l : grows P st P st i l.
Proof. split_and!; [done|apply sched_le_refl|by left|by left]. Qed.

Lemma grows_trans P st P1 st1 P2 st2 i l l' :
  grows P st P1 st1 i l → grows P1 st1 P2 st2 i l' →
  grows P st P2 st2 i (l ++ l').
Proof.
  intros (Hs1 & Hle1 & Hn1 & He1) (Hs2 & Hle2 & Hn2 & He2).
  split_and!.
  - set_solver.
  - by eapply sched_le_trans.
  - intros PI h [Hin|Hin]%Hn2.
    + destruct (Hn1 _ _ Hin) as [?|?]; [by left|]. right. apply elem_of_app. by left.
    + right. apply elem_of_app. by right.
  - intros i' pid' e [Hin|(-> & PI & HPI & Hpid & HP2 & HP1)]%He2.
    + destruct (He1 _ _ _ Hin) as [?|(-> & PI & HPI & Hpid & HP1 & HP)]; [by left|].
      right. split; [done|]. exists PI. split_and!; [|done| |done].
      * apply elem_of_app. by left.
      * by apply Hs2.
    + right. split; [done|]. exists PI. split_and!; [|done..|].
      * apply elem_of_app. by right.
      * intros HP. apply HP1. by apply Hs1.
Qed.

Lemma grows_weaken P st P' st' i l l' :
  (∀ x, x ∈ l → x ∈ l') → grows P st P' st' i l → grows P st P' st' i l'.
Proof.
  intros Hl (Hs & Hle & Hn & He). split_and!; [done..| |].
  - intros PI h [?|?]%Hn; auto.
  - intros i' pid' e [?|(-> & PI & ? & ? & ? & ?)]%He; [by left|].
    right. split; [done|]. exists PI. auto.
Qed.

Lemma grows_sched_le P st P' st' i l : grows P st P' st' i l → sched_le st st'.
Proof. by intros (_ & ? & _). Qed.

Lemma settled_mono ps0 P st P' st' i pid PI h :
  P ⊆ P' → sched_le st st' →
  settled ps0 P st i pid PI h → settled ps0 P' st' i pid PI h.
Proof.
  intros Hs [Hp Hu] [Hin|[(s & ? & ? & ?)|[Hh [e [rv He]]]]].
  - left. by apply Hs.
  - right; left. exists s. auto.
  - right; right. split; [done|]. exists e, rv. by apply Hp.
Qed.

Section ServerInv.

Variable order : ∀ A : Type, list A → list A.
Hypothesis order_perm : order_ok order.
Variable b : madmin.BackendInfo.
Variable ps0 : gmap string Pool.t.
Hypothesis ps0_ok : topology_ok b ps0.

(** An unprocessed server that the scheduler looks at is a server of the
    topology that has not been scheduled. *)
Lemma sched_inv_unprocessed P st pkey skey s :
  sched_inv ps0 P st →
  server_at (sched_pools st) pkey skey = Some s →
  Server.Processed s = false →
  server_at ps0 pkey skey = Some s ∧ ((pkey, skey) ∉ P)
  ∧ Server.Endpoint s = skey.
Proof.
  intros Hinv Hs Hp. rewrite (inv_servers _ _ _ Hinv) in Hs.
  destruct (server_at ps0 pkey skey) as [s0|] eqn:Hs0; [|done].
  injection Hs as <-. unfold mark in *.
  destruct (proj1 ps0_ok _ _ _ Hs0) as (HE & _ & _).
  destruct (decide ((pkey, skey) ∈ P)); [done|]. done.
Qed.

Lemma sched_inv_processed P st pkey skey s :
  sched_inv ps0 P st →
  server_at (sched_pools st) pkey skey = Some s →
  Server.Processed s = true → (pkey, skey) ∈ P.
Proof.
  intros Hinv Hs Hp. rewrite (inv_servers _ _ _ Hinv) in Hs.
  destruct (server_at ps0 pkey skey) as [s0|] eqn:Hs0; [|done].
  injection Hs as <-. unfold mark in *.
  destruct (proj1 ps0_ok _ _ _ Hs0) as (_ & HP & _).
  destruct (decide ((pkey, skey) ∈ P)); [done|]. congruence.
Qed.

Lemma makeHostfile_server_inv P i pid pkey st skey st' :
  Atoi pkey = Some pid →
  sched_inv ps0 P st →
  makeHostfile_server order i pid pkey st skey = Some st' →
  ∃ P', sched_inv ps0 P' st' ∧ grows P st P' st' i [pkey]
        ∧ settled ps0 P' st' i pid pkey skey.
Proof.
  intros Hpid Hinv Hst.
  destruct (makeHostfile_server_cases order order_perm _ _ _ _ _ _ Hst)
    as (s & Hs & [(Hp & ->)|[(Hp & Hbad & ->)|[(Hp & Hok & Hblocked & ->)
                 |(Hp & Hok & Hfree & Hnc & ->)]]]).
  - exists P. split_and!; [done|apply grows_refl|].
    left. by eapply sched_inv_processed.
  - destruct (sched_inv_unprocessed _ _ _ _ _ Hinv Hs Hp) as (Hs0 & HnP & HE).
    exists P. split_and!.
    + destruct Hinv. split; try done. simpl. intros e s'.
      destruct (decide (e = Server.Endpoint s)) as [->|He].
      * rewrite lookup_insert_eq. intros [= <-]. exists pkey. by rewrite HE.
      * rewrite lookup_insert_ne by done. auto.
    + split_and!; [done| |by left|by left]. split; [done|]. simpl. intros e He.
      destruct (decide (e = Server.Endpoint s)) as [->|Hne].
      * by rewrite lookup_insert_eq.
      * by rewrite lookup_insert_ne.
    + right; left. exists s. split_and!; [done..|]. simpl.
      by rewrite HE, lookup_insert_eq.
  - destruct (sched_inv_unprocessed _ _ _ _ _ Hinv Hs Hp) as (Hs0 & _ & _).
    exists P. split_and!; [done|apply grows_refl|].
    right; right. split; [by exists s|].
    destruct Hblocked as [?|(e & rv & He & _)]; eauto.
  - destruct (sched_inv_unprocessed _ _ _ _ _ Hinv Hs Hp) as (Hs0 & HnP & HE).
    rewrite HE in *. exists ({[(pkey, skey)]} ∪ P).
    assert (∀ i' pid' e s', placed st i' pid' e = Some s' →
              ¬ (i' = i ∧ pid' = pid ∧ e = skey)) as Hold.
    { intros i' pid' e s' He (-> & -> & ->). congruence. }
    split_and!.
    + split; simpl.
      * intros PI. rewrite mark_Processed_pool. apply Hinv.
      * intros PI h. rewrite mark_Processed_server_at, (inv_servers _ _ _ Hinv).
        destruct (server_at ps0 PI h) as [s0|] eqn:Hs0'; [|done]. simpl.
        f_equal. unfold mark.
        destruct (decide (PI = pkey ∧ h = skey)) as [[-> ->]|Hne].
        -- rewrite decide_False by done. rewrite decide_True by set_solver. done.
        -- destruct (decide ((PI, h) ∈ P)) as [Hin|Hin].
           ++ by rewrite decide_True by set_solver.
           ++ rewrite decide_False; [done|].
              intros [[= -> ->]%elem_of_singleton|?]%elem_of_union; [|done].
              by apply Hne.
      * intros PI h [[= -> ->]%elem_of_singleton|Hin]%elem_of_union.
        -- exists s. split_and!; [done..|]. exists i, pid. split; [done|].
           by rewrite placed_insert, decide_True.
        -- destruct (inv_scheduled _ _ _ Hinv _ _ Hin)
             as (s0 & Hs0' & Hh & i' & pid' & Hpid' & Hpl).
           exists s0. split_and!; [done..|]. exists i', pid'. split; [done|].
           rewrite placed_insert, decide_False; [done|]. by eapply Hold.
      * intros i' pid' e s'. rewrite placed_insert. case_decide as Heq.
        -- destruct Heq as (-> & -> & ->). intros [= <-].
           exists pkey, s. split_and!; [done..|set_solver].
        -- intros Hpl.
           destruct (inv_placed _ _ _ Hinv _ _ _ _ Hpl) as (PI & s0 & ? & ? & ? & ?).
           exists PI, s0. split_and!; [done..|set_solver].
      * intros i1 i2 pid' e. rewrite !placed_insert.
        assert (∀ j, is_Some (placed st j pid skey) → False) as Hnone.
        { intros j [s' Hpl].
          destruct (inv_placed _ _ _ Hinv _ _ _ _ Hpl) as (PI & s0 & HPI & Hs0' & _ & Hin).
          assert (PI = pkey) as ->; [|done].
          eapply topology_ok_key_inj; eauto using server_at_pool. }
        destruct (decide (i1 = i ∧ pid' = pid ∧ e = skey)) as [(-> & -> & ->)|H1].
        -- destruct (decide (i2 = i ∧ pid = pid ∧ skey = skey)) as [(-> & _)|H2];
             [done|]. intros _ H'. by destruct (Hnone i2).
        -- destruct (decide (i2 = i ∧ pid' = pid ∧ e = skey)) as [(-> & -> & ->)|H2].
           ++ intros H' _. by destruct (Hnone i1).
           ++ apply Hinv.
      * apply Hinv.
      * intros i' pid' e1 e2 s1 s2. rewrite !placed_insert.
        destruct (decide (i' = i ∧ pid' = pid ∧ e1 = skey)) as [(-> & -> & ->)|H1].
        -- destruct (decide (i = i ∧ pid = pid ∧ e2 = skey)) as [(_ & _ & ->)|H2];
             [done|].
           intros [= <-] Hpl _ Hc. apply (Hnc _ _ Hpl). by apply conflict_sym.
        -- destruct (decide (i' = i ∧ pid' = pid ∧ e2 = skey)) as [(-> & -> & ->)|H2].
           ++ intros Hpl [= <-] _ Hc. by apply (Hnc _ _ Hpl).
           ++ apply Hinv.
      * rewrite (inv_processed _ _ _ Hinv). unfold int_add.
        rewrite wrap_wrap_add. f_equal.
        rewrite size_union, size_singleton by set_solver. lia.
    + split_and!.
      * set_solver.
      * split; [|done]. intros i' pid' e s' Hpl.
        rewrite placed_insert, decide_False; [done|]. by eapply Hold.
      * intros PI h [[= -> ->]%elem_of_singleton|Hin]%elem_of_union; [|by left].
        right. by left.
      * intros i' pid' e. rewrite placed_insert. case_decide as Heq; [|by left].
        destruct Heq as (-> & -> & ->). intros _. right. split; [done|].
        exists pkey. split_and!; [by left|done|set_solver|done].
    + left. set_solver.
Qed.

End ServerInv.

(** ** The loops over the pools and over the rounds *)

Lemma foldl_opt_inv {A B} (I : B → Prop) (f : B → A → option B) l b b' :
  (∀ b a b', I b → f b a = Some b' → I b') →
  I b → foldl_opt f b l = Some b' → I b'.
Proof.
  intros Hstep. revert b. induction l as [|a l IH]; intros b Hb; simpl.
  - by intros [= <-].
  - destruct (f b a) as [b1|] eqn:Hf; [|done]. eauto.
Qed.

Lemma foldl_opt_ind {A B} (I : list A → B → Prop) (f : B → A → option B) l b b' :
  I [] b →
  (∀ vis a b0 b1, I vis b0 → f b0 a = Some b1 → I (vis ++ [a]) b1) →
  foldl_opt f b l = Some b' → I l b'.
Proof.
  intros Hnil Hstep.
  assert (∀ vis b0, I vis b0 → foldl_opt f b0 l = Some b' → I (vis ++ l) b') as H.
  { induction l as [|a l IH]; intros vis b0 Hvis; simpl.
    - intros [= <-]. by rewrite app_nil_r.
    - destruct (f b0 a) as [b1|] eqn:Hf; [|done]. intros Hfold.
      rewrite (cons_middle a vis l), app_assoc. apply (IH _ b1); [|done].
      by eapply Hstep. }
  apply (H [] b Hnil).
Qed.

Section Loops.

Variable order : ∀ A : Type, list A → list A.
Hypothesis order_perm : order_ok order.
Variable b : madmin.BackendInfo.
Variable ps0 : gmap string Pool.t.
Hypothesis ps0_ok : topology_ok b ps0.

(** The shape of one iteration of the loop over [poolss]. *)
Lemma makeHostfile_pool_Some i st pkey st' :
  makeHostfile_pool order i st pkey = Some st' →
  ∃ pid v st1,
    Atoi pkey = Some pid ∧ 0 ≤ pid < 200 ∧ sched_pools st !! pkey = Some v
    ∧ sched_pools st1 = sched_pools st ∧ unhealthy st1 = unhealthy st
    ∧ processed st1 = processed st
    ∧ (∀ i' pid' e, placed st1 i' pid' e = placed st i' pid' e)
    ∧ foldl_opt (makeHostfile_server order i pid pkey) st1
        (stringKeysSorted order (Pool.Servers v)) = Some st'.
Proof.
  unfold makeHostfile_pool. destruct (Atoi pkey) as [pid|]; [|done].
  case_bool_decide as Hpid; [|done].
  destruct (sched_pools st !! pkey) as [v|]; [|done].
  intros Hfold. exists pid, v. eexists.
  split_and!; last exact Hfold; try done; try lia;
    destruct (rebootRounds st !! (i, pid)) eqn:Hr; try done.
  intros i' pid' e. unfold placed. simpl.
  destruct (decide ((i', pid') = (i, pid))) as [[= -> ->]|Hne].
  - by rewrite lookup_insert_eq, Hr.
  - by rewrite lookup_insert_ne.
Qed.

Lemma sched_inv_placed_ext P st st1 :
  sched_pools st1 = sched_pools st → unhealthy st1 = unhealthy st →
  processed st1 = processed st →
  (∀ i' pid' e, placed st1 i' pid' e = placed st i' pid' e) →
  sched_inv ps0 P st → sched_inv ps0 P st1.
Proof.
  intros Hp Hu Hn Hpl [I1 I2 I3 I4 I5 I6 I7 I8].
  split; rewrite ?Hp, ?Hu, ?Hn; try done.
  - intros PI h Hin. destruct (I3 _ _ Hin) as (s0 & ? & ? & i & pid & ? & ?).
    exists s0. split_and!; [done..|]. exists i, pid. by rewrite Hpl.
  - intros i pid e s. rewrite Hpl. apply I4.
  - intros i j pid e. rewrite !Hpl. apply I5.
  - intros i pid e1 e2 s1 s2. rewrite !Hpl. apply I7.
Qed.

Lemma pool_server_keys P st pkey v h :
  sched_inv ps0 P st → sched_pools st !! pkey = Some v →
  is_Some (Pool.Servers v !! h) ↔ is_Some (server_at ps0 pkey h).
Proof.
  intros Hinv Hv. pose proof (inv_servers _ _ _ Hinv pkey h) as Hs.
  unfold server_at in Hs at 1. rewrite Hv in Hs. simpl in Hs. rewrite Hs.
  apply fmap_is_Some.
Qed.

Lemma makeHostfile_pool_inv P i st pkey st' :
  sched_inv ps0 P st →
  makeHostfile_pool order i st pkey = Some st' →
  ∃ P' pid,
    Atoi pkey = Some pid ∧ sched_inv ps0 P' st' ∧ grows P st P' st' i [pkey]
    ∧ ∀ h, is_Some (server_at ps0 pkey h) → settled ps0 P' st' i pid pkey h.
Proof.
  intros Hinv (pid & v & st1 & Hpid & _ & Hv & Hp & Hu & Hn & Hpl & Hfold)
    %makeHostfile_pool_Some.
  apply (foldl_opt_ind
           (λ vis st', ∃ P', sched_inv ps0 P' st' ∧ grows P st P' st' i [pkey]
                             ∧ ∀ h, h ∈ vis → settled ps0 P' st' i pid pkey h))
    in Hfold.
  - destruct Hfold as (P' & Hinv' & Hg & Hvis). exists P', pid.
    split_and!; [done..|]. intros h Hh. apply Hvis.
    apply (elem_of_stringKeysSorted order order_perm).
    by apply (pool_server_keys _ _ _ _ h Hinv Hv).
  - exists P. split_and!; [by eapply sched_inv_placed_ext| |by intros h ?%elem_of_nil].
    split_and!; [done| |by left|].
    + split; [|by rewrite Hu]. intros i' pid' e s. by rewrite Hpl.
    + intros i' pid' e. rewrite Hpl. by left.
  - intros vis skey st2 st3 (P2 & Hinv2 & Hg2 & Hvis) Hstep.
    destruct (makeHostfile_server_inv order order_perm b ps0 ps0_ok
                _ _ _ _ _ _ _ Hpid Hinv2 Hstep) as (P3 & Hinv3 & Hg3 & Hset).
    exists P3. split_and!; [done| |].
    + eapply grows_weaken; [|by eapply grows_trans].
      intros x [?|?]%elem_of_app; done.
    + intros h [Hh|Hh%list_elem_of_singleton]%elem_of_app; [|by subst].
      eapply settled_mono; [apply Hg3|by eapply grows_sched_le|by apply Hvis].
Qed.

Lemma makeHostfile_pools_inv P i st poolss st' :
  sched_inv ps0 P st →
  foldl_opt (makeHostfile_pool order i) st poolss = Some st' →
  ∃ P', sched_inv ps0 P' st' ∧ grows P st P' st' i poolss
        ∧ ∀ PI h, PI ∈ poolss → is_Some (server_at ps0 PI h) →
                  ∃ pid, Atoi PI = Some pid ∧ settled ps0 P' st' i pid PI h.
Proof.
  intros Hinv Hfold.
  apply (foldl_opt_ind
           (λ vis st', ∃ P', sched_inv ps0 P' st' ∧ grows P st P' st' i vis
                             ∧ ∀ PI h, PI ∈ vis → is_Some (server_at ps0 PI h) →
                                 ∃ pid, Atoi PI = Some pid
                                        ∧ settled ps0 P' st' i pid PI h))
    in Hfold; [done| |].
  - exists P. split_and!; [done|apply grows_refl|by intros PI h ?%elem_of_nil].
  - intros vis pkey st2 st3 (P2 & Hinv2 & Hg2 & Hvis) Hstep.
    destruct (makeHostfile_pool_inv _ _ _ _ _ Hinv2 Hstep)
      as (P3 & pid & Hpid & Hinv3 & Hg3 & Hset).
    exists P3. split_and!; [done|by eapply grows_trans|].
    intros PI h [HPI|HPI%list_elem_of_singleton]%elem_of_app Hh; [|subst PI].
    + destruct (Hvis _ _ HPI Hh) as (pid' & Hpid' & Hs). exists pid'.
      split; [done|].
      eapply settled_mono; [apply Hg3|by eapply grows_sched_le|done].
    + exists pid. split; [done|]. by apply Hset.
Qed.

Lemma makeHostfile_rounds_inv P total poolss rounds st st' rep :
  sched_inv ps0 P st →
  makeHostfile_rounds order total poolss rounds st = Some (st', rep) →
  ∃ P', sched_inv ps0 P' st' ∧ P ⊆ P' ∧ sched_le st st'.
Proof.
  revert P st. induction rounds as [|i rounds IH]; intros P st Hinv; simpl.
  - intros [= <- <-]. exists P. split_and!; [done..|apply sched_le_refl].
  - destruct (_ >=? _).
    { intros [= <- <-]. exists P. split_and!; [done..|apply sched_le_refl]. }
    destruct (foldl_opt _ st poolss) as [st1|] eqn:Hpools; [|done].
    intros Hrounds.
    destruct (makeHostfile_pools_inv _ _ _ _ _ Hinv Hpools)
      as (P1 & Hinv1 & (Hsub1 & Hle1 & _) & _).
    destruct (IH _ _ Hinv1 Hrounds) as (P2 & Hinv2 & Hsub2 & Hle2).
    exists P2. split_and!; [done|set_solver|by eapply sched_le_trans].
Qed.

End Loops.

Lemma sched_inv_init ps0 : sched_inv ps0 ∅ (mkSched ps0 ∅ ∅ 0).
Proof.
  assert (∀ i pid e, placed (mkSched ps0 ∅ ∅ 0) i pid e = None) as Hnone.
  { intros. unfold placed. simpl. by rewrite lookup_empty. }
  split; simpl.
  - done.
  - intros PI h. unfold mark. destruct (server_at ps0 PI h); [|done]. simpl.
    by rewrite decide_False by set_solver.
  - intros PI h Hin. by apply elem_of_empty in Hin.
  - intros i pid e s. by rewrite Hnone.
  - intros i j pid e. rewrite Hnone. by intros [? ?].
  - intros e s. by rewrite lookup_empty.
  - intros i pid e1 e2 s1 s2. by rewrite Hnone.
  - done.
Qed.

Lemma makeHostfile_Some url_Parse order info out :
  makeHostfile url_Parse order info = Some out →
  ∃ ps0 total,
    getInfra url_Parse order info = Some (ps0, total)
    ∧ makeHostfile_rounds order total (stringKeysSorted order ps0) (seq 0 200)
        (mkSched ps0 ∅ ∅ 0) = Some (final out, report out)
    ∧ failure_file out = write_failure order (final out)
    ∧ round_files out = write_round order (final out) <$> seq 0 200.
Proof.
  unfold makeHostfile.
  destruct (getInfra url_Parse order info) as [[ps0 total]|]; [|done].
  destruct (makeHostfile_rounds _ _ _ _ _) as [[st rep]|] eqn:Hr; [|done].
  intros [= <-]. by exists ps0, total.
Qed.

Lemma makeHostfile_inv url_Parse order info out :
  order_ok order →
  makeHostfile url_Parse order info = Some out →
  ∃ ps0 total P,
    getInfra url_Parse order info = Some (ps0, total)
    ∧ topology_ok (madmin.Backend info) ps0
    ∧ sched_inv ps0 P (final out).
Proof.
  intros Hord (ps0 & total & Hinfra & Hrounds & _)%makeHostfile_Some.
  pose proof (getInfra_topology_ok _ _ Hord _ _ _ Hinfra) as Hok.
  destruct (makeHostfile_rounds_inv order Hord _ _ Hok _ _ _ _ _ _ _
              (sched_inv_init ps0) Hrounds) as (P & Hinv & _).
  by exists ps0, total, P.
Qed.

(** ** The round files *)

Lemma in_round_intro out i h :
  h ∈ default [] (round_files out !! i) → in_round out i h.
Proof.
  unfold in_round. destruct (round_files out !! i) as [f|]; simpl.
  - intros Hh. by exists f.
  - by intros ?%elem_of_nil.
Qed.

Lemma one_pool_server_at ps h PI1 PI2 :
  one_pool ps h →
  is_Some (server_at ps PI1 h) → is_Some (server_at ps PI2 h) → PI1 = PI2.
Proof.
  unfold server_at. intros Hone [s1 H1] [s2 H2].
  destruct (ps !! PI1) as [v1|] eqn:Hv1; [|done].
  destruct (ps !! PI2) as [v2|] eqn:Hv2; [|done]. simpl in *.
  apply (Hone _ _ Hv1 _ _ Hv2); by eexists.
Qed.

Section RoundFiles.

Variable order : ∀ A : Type, list A → list A.
Hypothesis order_perm : order_ok order.
Variable b : madmin.BackendInfo.
Variable ps0 : gmap string Pool.t.
Hypothesis ps0_ok : topology_ok b ps0.

(** A pass over the pools that does not panic has indexed the array with
    the number of every pool. *)
Lemma makeHostfile_pools_range i st poolss st' PI :
  foldl_opt (makeHostfile_pool order i) st poolss = Some st' →
  PI ∈ poolss → ∃ pid, Atoi PI = Some pid ∧ 0 ≤ pid < 200.
Proof.
  intros Hfold. revert PI.
  refine (foldl_opt_ind
            (λ vis _, ∀ PI, PI ∈ vis → ∃ pid, Atoi PI = Some pid ∧ 0 ≤ pid < 200)
            _ _ _ _ _ _ Hfold); [by intros ? ?%elem_of_nil|].
  intros vis pkey st2 st3 Hvis Hstep PI' [?|Hin%list_elem_of_singleton]%elem_of_app;
    [by apply Hvis|]. subst PI'.
  apply makeHostfile_pool_Some in Hstep as (pid & _ & _ & Hpid & Hr & _).
  by exists pid.
Qed.

Lemma makeHostfile_rounds_in_array P total poolss rounds st st' rep :
  (∀ i, i ∈ rounds → (i < 200)%nat) →
  sched_inv ps0 P st → in_array st →
  makeHostfile_rounds order total poolss rounds st = Some (st', rep) →
  in_array st'.
Proof.
  revert P st. induction rounds as [|i rounds IH]; intros P st Hr Hinv Harr; simpl.
  - by intros [= <- <-].
  - destruct (_ >=? _); [by intros [= <- <-]|].
    destruct (foldl_opt _ st poolss) as [st1|] eqn:Hpools; [|done].
    intros Hrounds.
    destruct (makeHostfile_pools_inv order order_perm b ps0 ps0_ok
                _ _ _ _ _ Hinv Hpools) as (P1 & Hinv1 & (_ & _ & _ & Hnew) & _).
    apply (IH P1 st1); [|done| |done].
    + intros j Hj. apply Hr. by right.
    + intros i' pid' e Hpl. destruct (Hnew _ _ _ Hpl) as [Hold|(-> & PI & HPI & Hpid & _)].
      * by apply (Harr i' pid' e).
      * split; [apply Hr; by left|].
        destruct (makeHostfile_pools_range _ _ _ _ _ Hpools HPI) as (pid & Hpid' & ?).
        congruence.
Qed.

(** The lines of a round file are the servers of the round. *)
Lemma elem_of_write_round P st i h :
  sched_inv ps0 P st → in_array st →
  h ∈ write_round order st i
  ↔ ∃ PI, is_Some (server_at ps0 PI h) ∧ assigned st PI h i.
Proof.
  intros Hinv Harr. unfold write_round.
  rewrite list_elem_of_join. split.
  - intros (l & Hh & Hl). apply list_elem_of_fmap in Hl as (pid & -> & _).
    apply list_elem_of_omap in Hh as (rvkey & _ & Hh).
    destruct (default ∅ (rebootRounds st !! (i, pid)) !! rvkey) as [s|] eqn:Hs;
      [|done].
    simpl in Hh. injection Hh as <-.
    destruct (inv_placed _ _ _ Hinv _ _ _ _ Hs) as (PI & s0 & HPI & Hs0 & -> & _).
    destruct (proj1 ps0_ok _ _ _ Hs0) as (HE & _).
    exists PI. simpl. rewrite HE. split; [by eexists|].
    exists pid. split; [done|]. by eexists.
  - intros (PI & _ & pid & HPI & [s Hs]).
    destruct (Harr i pid h) as [_ Hpid]; [by eexists|].
    eexists. split; [|apply list_elem_of_fmap; exists pid; split; [done|]].
    + apply list_elem_of_omap. exists h. split.
      * apply (elem_of_stringKeysSorted order order_perm). by eexists.
      * unfold placed in Hs. rewrite Hs. simpl.
        destruct (inv_placed _ _ _ Hinv _ _ _ _ Hs) as (PI' & s0 & _ & Hs0 & -> & _).
        destruct (proj1 ps0_ok _ _ _ Hs0) as (HE & _). simpl. by rewrite HE.
    + apply elem_of_seqZ. lia.
Qed.

(** A server of the topology that is in a round. *)
Lemma assigned_placed P st PI h i :
  sched_inv ps0 P st → is_Some (server_at ps0 PI h) → assigned st PI h i →
  ∃ pid s0, Atoi PI = Some pid ∧ server_at ps0 PI h = Some s0
            ∧ placed st i pid h = Some (Server.with_Processed true s0).
Proof.
  intros Hinv [s Hs] (pid & Hpid & [s' Hpl]).
  destruct (inv_placed _ _ _ Hinv _ _ _ _ Hpl) as (PI' & s0 & HPI' & Hs0 & -> & _).
  assert (PI' = PI) as ->.
  { eapply topology_ok_key_inj; eauto using server_at_pool. }
  by exists pid, s0.
Qed.

End RoundFiles.

Lemma makeHostfile_in_round url_Parse order info out ps total :
  order_ok order →
  getInfra url_Parse order info = Some (ps, total) →
  makeHostfile url_Parse order info = Some out →
  ∃ P, topology_ok (madmin.Backend info) ps ∧ sched_inv ps P (final out)
       ∧ ∀ i h, in_round out i h
                ↔ ∃ PI, is_Some (server_at ps PI h) ∧ assigned (final out) PI h i.
Proof.
  intros Hord Hinfra Hout.
  destruct (makeHostfile_Some _ _ _ _ Hout)
    as (ps' & total' & Hinfra' & Hrounds & _ & Hfiles).
  rewrite Hinfra in Hinfra'. injection Hinfra' as <- <-.
  pose proof (getInfra_topology_ok _ _ Hord _ _ _ Hinfra) as Hok.
  destruct (makeHostfile_rounds_inv order Hord _ _ Hok _ _ _ _ _ _ _
              (sched_inv_init ps) Hrounds) as (P & Hinv & _).
  assert (in_array (final out)) as Harr.
  { apply (makeHostfile_rounds_in_array order Hord _ _ Hok _ _ _ _ _ _ _
             (λ i Hi, proj2 (proj1 (elem_of_seq 0 200 i) Hi))
             (sched_inv_init ps)) in Hrounds; [done|].
    intros i pid e [s Hs]. unfold placed in Hs. simpl in Hs.
    by rewrite lookup_empty in Hs. }
  exists P. split_and!; [done..|]. intros i h.
  rewrite <- (elem_of_write_round order Hord _ _ Hok _ _ i h Hinv Harr).
  unfold in_round. rewrite Hfiles, list_lookup_fmap. split.
  - intros (f & Hf & Hh).
    destruct (seq 0 200 !! i) as [i'|] eqn:Hi; [|done].
    apply lookup_seq in Hi as [-> _]. simpl in Hf. by injection Hf as <-.
  - intros Hh. exists (write_round order (final out) i). split; [|done].
    apply (elem_of_write_round order Hord _ _ Hok _ _ i h Hinv Harr)
      in Hh as (PI & _ & pid & _ & Hpl).
    destruct (Harr _ _ _ Hpl) as [Hi _].
    by rewrite (lookup_seq_lt 0 200 i Hi).
Qed.

(** C1 (as amended) — Scheduler safety, pool by pool.  In every round left
    by [makeHostfile], within the part of the round that belongs to one pool
    no two distinct servers have a set id in common in their [Sets] maps:
    two distinct servers of the same pool that are assigned to the same
    round hold no drive of a common erasure set of that pool.  The check is
    made pool by pool, and the file of a round lists the host names of all
    pools: for two distinct hosts of one round file that each serve a single
    pool, no erasure set (a pool and a set id) has drives on both.  Nothing
    is checked across pools: servers of different pools in one round may
    carry equal set ids, and a host that serves two pools is scheduled once
    for each, so that it can be listed in a round next to a host with which
    it shares an erasure set of its other pool. *)
Theorem C1_scheduler_safety url_Parse order info out ps total :
  order_ok order →
  getInfra url_Parse order info = Some (ps, total) →
  makeHostfile url_Parse order info = Some out →
  (∀ i pid e1 e2 s1 s2,
     placed (final out) i pid e1 = Some s1 →
     placed (final out) i pid e2 = Some s2 →
     e1 ≠ e2 → ¬ conflict s1 s2)
  ∧ (∀ i PI h1 h2 SI,
       assigned (final out) PI h1 i → assigned (final out) PI h2 i → h1 ≠ h2 →
       ¬ (is_Some (view_at ps PI h1 SI) ∧ is_Some (view_at ps PI h2 SI)))
  ∧ (∀ i h1 h2,
       in_round out i h1 → in_round out i h2 → h1 ≠ h2 →
       one_pool ps h1 → one_pool ps h2 → ¬ hosts_share_set ps h1 h2).
Proof.
  intros Hord Hinfra Hout.
  destruct (makeHostfile_in_round _ _ _ _ _ _ Hord Hinfra Hout)
    as (P & Hok & Hinv & Hfile).
  assert (∀ i PI h1 h2 SI,
            assigned (final out) PI h1 i → assigned (final out) PI h2 i →
            h1 ≠ h2 →
            ¬ (is_Some (view_at ps PI h1 SI) ∧ is_Some (view_at ps PI h2 SI)))
    as Hpool.
  { intros i PI h1 h2 SI H1 H2 Hne [Hv1 Hv2].
    assert (is_Some (server_at ps PI h1)) as Hs1.
    { unfold view_at in Hv1. destruct (server_at ps PI h1); [by eexists|].
      by destruct Hv1. }
    assert (is_Some (server_at ps PI h2)) as Hs2.
    { unfold view_at in Hv2. destruct (server_at ps PI h2); [by eexists|].
      by destruct Hv2. }
    destruct (assigned_placed _ _ Hok _ _ _ _ _ Hinv Hs1 H1)
      as (pid & s1 & Hpid & Hs1' & Hp1).
    destruct (assigned_placed _ _ Hok _ _ _ _ _ Hinv Hs2 H2)
      as (pid' & s2 & Hpid' & Hs2' & Hp2).
    assert (pid' = pid) as -> by congruence.
    apply (inv_conflict _ _ _ Hinv _ _ _ _ _ _ Hp1 Hp2 Hne).
    exists SI. unfold view_at in Hv1, Hv2. rewrite Hs1' in Hv1. rewrite Hs2' in Hv2.
    by split. }
  split_and!.
  - intros i pid e1 e2 s1 s2 H1 H2 Hne.
    by apply (inv_conflict _ _ _ Hinv _ _ _ _ _ _ H1 H2 Hne).
  - exact Hpool.
  - intros i h1 h2 (PI1 & Hs1 & H1)%Hfile (PI2 & Hs2 & H2)%Hfile Hne Ho1 Ho2
      (PI & SI & Hv1 & Hv2).
    assert (is_Some (server_at ps PI h1)) as Hs1'.
    { unfold view_at in Hv1. destruct (server_at ps PI h1); [by eexists|].
      by destruct Hv1. }
    assert (is_Some (server_at ps PI h2)) as Hs2'.
    { unfold view_at in Hv2. destruct (server_at ps PI h2); [by eexists|].
      by destruct Hv2. }
    assert (PI1 = PI) as -> by exact (one_pool_server_at ps h1 PI1 PI Ho1 Hs1 Hs1').
    assert (PI2 = PI) as -> by exact (one_pool_server_at ps h2 PI2 PI Ho2 Hs2 Hs2').
    by apply (Hpool i PI h1 h2 SI H1 H2 Hne).
Qed.

(** The host [b] of [demo_shared] serves two pools.  As a server of pool 2
    it is assigned to round 0, and [round-0] lists [a] and [b], which both
    hold a drive of set 1 of pool 1.  On [demo_heal], round 0 holds server
    [a] of pool 1 and server [z] of pool 2, and both have the set id 1 in
    their [Sets] maps. *)
Lemma C1_counterexample :
  ¬ round_safe demo_Parse order_id demo_shared
  ∧ ¬ round_no_common_set_id demo_Parse order_id demo_heal.
Proof.
  split.
  - intros Hsafe.
    assert (bool_decide (is_Some (makeHostfile demo_Parse order_id demo_shared)) = true)
      as [out Hout]%bool_decide_eq_true.
    { vm_compute. reflexivity. }
    assert (bool_decide (is_Some (getInfra demo_Parse order_id demo_shared)) = true)
      as [[ps total] Hinfra]%bool_decide_eq_true.
    { vm_compute. reflexivity. }
    assert (from_option
              (λ out, bool_decide ("a" ∈ default [] (round_files out !! 0%nat)
                                   ∧ "b" ∈ default [] (round_files out !! 0%nat)))
              false (makeHostfile demo_Parse order_id demo_shared) = true) as Hin.
    { vm_compute. reflexivity. }
    assert (from_option
              (λ x : gmap string Pool.t * Z,
                 bool_decide (is_Some (view_at x.1 "1" "a" 1)
                              ∧ is_Some (view_at x.1 "1" "b" 1)))
              false (getInfra demo_Parse order_id demo_shared) = true) as Hv.
    { vm_compute. reflexivity. }
    rewrite Hout in Hin. rewrite Hinfra in Hv. simpl in Hin, Hv.
    apply bool_decide_eq_true in Hin as [Ha%in_round_intro Hb%in_round_intro].
    apply bool_decide_eq_true in Hv.
    refine (Hsafe out ps total 0%nat "a" "b" Hout Hinfra Ha Hb _ _).
    + clear. intros [=].
    + exists "1", 1. exact Hv.
  - intros Hsafe.
    assert (bool_decide (is_Some (makeHostfile demo_Parse order_id demo_heal)) = true)
      as [out Hout]%bool_decide_eq_true.
    { vm_compute. reflexivity. }
    assert (from_option
              (λ out,
                 bool_decide
                   (is_Some (placed (final out) 0 1 "a" ≫= λ s, Server.Sets s !! 1)
                    ∧ is_Some (placed (final out) 0 2 "z" ≫= λ s, Server.Sets s !! 1)))
              false (makeHostfile demo_Parse order_id demo_heal) = true) as Hpl.
    { vm_compute. reflexivity. }
    rewrite Hout in Hpl. simpl in Hpl.
    apply bool_decide_eq_true in Hpl as [[v1 H1] [v2 H2]].
    apply bind_Some in H1 as (s1 & Hs1 & Hk1).
    apply bind_Some in H2 as (s2 & Hs2 & Hk2).
    refine (Hsafe out 0%nat 1 2 "a" "z" s1 s2 Hout Hs1 Hs2 _ _).
    + clear. intros [=].
    + exists 1. split; [exists v1; exact Hk1|exists v2; exact Hk2].
Qed.

(** C9 — Scheduler determinism.  Two runs of [makeHostfile] on the same
    storage info, whatever order the runtime picks for each map iteration,
    either both abort or leave the same rounds, the same failure map, the
    same report and the same round files; the lines of the failure file are
    the same up to their order, which is the order of a map iteration. *)
Theorem C9_scheduler_determinism url_Parse order1 order2 info :
  order_ok order1 → order_ok order2 →
  match makeHostfile url_Parse order1 info, makeHostfile url_Parse order2 info with
  | Some out1, Some out2 =>
      rebootRounds (final out1) = rebootRounds (final out2)
      ∧ unhealthy (final out1) = unhealthy (final out2)
      ∧ final out1 = final out2
      ∧ report out1 = report out2
      ∧ round_files out1 = round_files out2
      ∧ failure_file out1 ≡ₚ failure_file out2
  | None, None => True
  | _, _ => False
  end.
Proof.
  intros H1 H2. unfold makeHostfile.
  rewrite (getInfra_order order1 order2 H1 H2).
  destruct (getInfra url_Parse order2 info) as [[ps0 total]|]; [|done].
  rewrite (stringKeysSorted_order order1 order2 H1 H2),
    (makeHostfile_rounds_order order1 order2 H1 H2).
  destruct (makeHostfile_rounds _ _ _ _ _) as [[st rep]|]; [|done].
  cbn [final report round_files failure_file]. split_and!; try done.
  - apply list_fmap_ext. intros _ ri _. by apply write_round_order.
  - by apply write_failure_order.
Qed.

(** ** Heal monitors *)

Lemma Sprintf_d_slash_d_inj p s s' :
  Sprintf_d_slash_d p s = Sprintf_d_slash_d p s' → s = s'.
Proof.
  unfold Sprintf_d_slash_d. intros E.
  apply (inj (String.app _)) in E. apply (inj (String.app _)) in E.
  by apply Itoa_inj.
Qed.

Lemma healSet_poll_other p s token answers m issued k :
  k ≠ healSet_key p s →
  healMap (healSet_poll p s token answers m issued) !! k = m !! k.
Proof.
  intros Hk. revert token m issued.
  induction answers as [|a answers IH]; intros token m issued; simpl; [done|].
  destruct a as [|token' items].
  - simpl. unfold healSet_deferred. by rewrite lookup_insert_ne.
  - destruct (healSet_items items) as [invalidStates [|]].
    + simpl. unfold healSet_deferred. by rewrite !lookup_insert_ne.
    + rewrite IH. by rewrite lookup_insert_ne.
Qed.

Lemma healSet_other p s answers m k :
  k ≠ healSet_key p s → healMap (healSet p s answers m) !! k = m !! k.
Proof.
  intros Hk. destruct answers as [|[|token items] answers]; simpl; [done| |].
  - unfold healSet_deferred. by rewrite lookup_insert_ne.
  - by apply healSet_poll_other.
Qed.

(** C6 — Heal progress map keying.  The monitor for pool [p], set [s]
    changes no entry of the progress map but the one under
    [Sprintf("%d/%d", p, p)]: when [p ≠ s] the entry under its own key
    ["p/s"], registered by [heal], is never updated by it. *)
Theorem C6_healSet_writes_under_pool_pool p s answers m :
  (∀ k, k ≠ Sprintf_d_slash_d p p →
        healMap (healSet p s answers m) !! k = m !! k)
  ∧ (p ≠ s →
     healMap (healSet p s answers m) !! Sprintf_d_slash_d p s
     = m !! Sprintf_d_slash_d p s).
Proof.
  split.
  - intros k Hk. by apply healSet_other.
  - intros Hps. apply healSet_other. unfold healSet_key.
    intros E. by apply Sprintf_d_slash_d_inj in E.
Qed.

(** The monitor as it is left by an error answer. *)
Lemma healSet_poll_error p s token oks rest m issued :
  monitorState (healSet_poll p s token oks m issued) = Running →
  ∃ call,
    healSet_poll p s token (oks ++ madmin.HealErr :: rest) m issued
    = mkMonitor
        (<[healSet_key p s := 0]> (healMap (healSet_poll p s token oks m issued)))
        (calls (healSet_poll p s token oks m issued) ++ [call]) Exited.
Proof.
  revert token m issued.
  induction oks as [|a oks IH]; intros token m issued; simpl.
  - intros _. by eexists.
  - destruct a as [|token' items]; [done|].
    destruct (healSet_items items) as [invalidStates [|]]; [done|].
    apply IH.
Qed.

(** C8 (as amended) — Heal error.  When a call of a running monitor is
    answered by an error, the monitor returns: it makes no further call,
    whatever answers would follow, and its deferred function writes 0 under
    the key the monitor writes to.  The count is reset, not frozen. *)
Theorem C8_heal_error_resets_count p s oks rest m :
  monitorState (healSet p s oks m) = Running →
  let before := healSet p s oks m in
  let after := healSet p s (oks ++ madmin.HealErr :: rest) m in
  monitorState after = Exited
  ∧ healMap after = <[healSet_key p s := 0]> (healMap before)
  ∧ healMap after !! healSet_key p s = Some 0
  ∧ length (calls after) = S (length (calls before)).
Proof.
  intros Hrun. cbn zeta.
  assert (∃ call,
    healSet p s (oks ++ madmin.HealErr :: rest) m
    = mkMonitor (<[healSet_key p s := 0]> (healMap (healSet p s oks m)))
        (calls (healSet p s oks m) ++ [call]) Exited) as [call ->].
  { destruct oks as [|[|token items] oks]; simpl in *; [by eexists|done|].
    by apply healSet_poll_error. }
  simpl. rewrite lookup_insert_eq, length_app. simpl.
  split_and!; [done..|lia].
Qed.

(** The unit of pool 0, set 0 is registered with count 1, reports 5
    missing objects and is then answered an error: its entry goes to 0. *)
Lemma C8_counterexample :
  ¬ frozen_at_last_count 0 0 (demo_answers 5) {["0/0" := 1]}.
Proof.
  intros (c & Hc & Hbefore & Hafter).
  vm_compute in Hbefore, Hafter. congruence.
Qed.

(** ** The monitors started by [heal] *)

Lemma Atoi_is_int s z : Atoi s = Some z → is_int z.
Proof.
  unfold Atoi. destruct (match s with EmptyString => _ | _ => _ end); [|done].
  case_bool_decide; [|done]. by intros [= <-].
Qed.

Lemma map_size_1_key `{Countable K} {V} (m : gmap K V) k1 k2 :
  size m = 1%nat → is_Some (m !! k1) → is_Some (m !! k2) → k1 = k2.
Proof.
  rewrite <- size_dom. intros Hsz H1%elem_of_dom H2%elem_of_dom.
  by apply (size_singleton_inv (dom m)).
Qed.

Section Heal.

Variable order : ∀ A : Type, list A → list A.
Hypothesis order_perm : order_ok order.

Lemma heal_sets_spec poolIndex vv acc :
  (heal_sets order poolIndex vv acc).2 = acc.2 ++ targets_sets order poolIndex vv
  ∧ (registered acc → registered (heal_sets order poolIndex vv acc)).
Proof.
  unfold heal_sets, targets_sets. generalize (range order (Server.Sets vv)).
  intros l. revert acc. induction l as [|kv l IH]; intros acc.
  - simpl. by rewrite app_nil_r.
  - cbn [foldl]. destruct (IH (<[Sprintf_d_slash_d (int_sub poolIndex 1)
                                   (int_sub kv.1 1) := 1]> acc.1,
                               acc.2 ++ [(int_sub poolIndex 1, int_sub kv.1 1)]))
      as [-> Hreg].
    split.
    + simpl. by rewrite <- app_assoc.
    + intros Hacc. apply Hreg. intros p s. simpl.
      intros [Hin|[= -> ->]%list_elem_of_singleton]%elem_of_app.
      * destruct (decide (Sprintf_d_slash_d (int_sub poolIndex 1) (int_sub kv.1 1)
                          = Sprintf_d_slash_d p s)) as [->|Hne].
        -- by rewrite lookup_insert_eq.
        -- rewrite lookup_insert_ne by done. by apply Hacc.
      * by rewrite lookup_insert_eq.
Qed.

Lemma heal_servers_spec endpoint poolIndex v acc :
  (heal_servers order endpoint poolIndex v acc).2
  = acc.2 ++ targets_servers order endpoint poolIndex v
  ∧ (registered acc → registered (heal_servers order endpoint poolIndex v acc)).
Proof.
  unfold heal_servers, targets_servers. generalize (range order (Pool.Servers v)).
  intros l. revert acc. induction l as [|kv l IH]; intros acc.
  - simpl. by rewrite app_nil_r.
  - cbn [foldl]. csimpl.
    destruct (bool_decide (endpoint = Server.Endpoint kv.2)
              || bool_decide (size (Pool.Servers v) = 1%nat)).
    + destruct (IH (heal_sets order poolIndex kv.2 acc)) as [-> Hreg].
      destruct (heal_sets_spec poolIndex kv.2 acc) as [-> Hreg'].
      split; [by rewrite <- app_assoc|auto].
    + apply IH.
Qed.

Lemma heal_pools_spec endpoint l acc acc' :
  foldl_opt
    (λ acc (kv : string * Pool.t),
       match Atoi kv.1 with
       | None => None
       | Some poolIndex => Some (heal_servers order endpoint poolIndex kv.2 acc)
       end) acc l = Some acc' →
  acc'.2 = acc.2 ++ (l ≫= λ kv : string * Pool.t,
                       from_option (λ pid, targets_servers order endpoint pid kv.2) []
                         (Atoi kv.1))
  ∧ (registered acc → registered acc').
Proof.
  revert acc. induction l as [|kv l IH]; intros acc; simpl.
  - intros [= <-]. by rewrite app_nil_r.
  - destruct (Atoi kv.1) as [pid|] eqn:Hpid; [|done]. intros Hfold.
    destruct (IH _ Hfold) as [-> Hreg].
    destruct (heal_servers_spec endpoint pid kv.2 acc) as [-> Hreg'].
    split; [|auto]. csimpl. rewrite ?Hpid. simpl. by rewrite <- app_assoc.
Qed.

Lemma NoDup_range `{Countable K} {V} (m : gmap K V) : NoDup (range order m).
Proof. unfold range. rewrite (order_perm _ _). apply NoDup_map_to_list. Qed.

Lemma elem_of_targets_sets poolIndex vv p s :
  (p, s) ∈ targets_sets order poolIndex vv
  ↔ ∃ si, is_Some (Server.Sets vv !! si)
          ∧ p = int_sub poolIndex 1 ∧ s = int_sub si 1.
Proof.
  unfold targets_sets. rewrite list_elem_of_fmap. split.
  - intros ([si v] & [= -> ->] & Hin%(elem_of_range order order_perm)).
    exists si. split; [by exists v|done].
  - intros (si & [v Hv] & -> & ->). exists (si, v). split; [done|].
    by apply (elem_of_range order order_perm).
Qed.

Lemma elem_of_targets_servers endpoint poolIndex v p s :
  (p, s) ∈ targets_servers order endpoint poolIndex v
  ↔ ∃ h vv, Pool.Servers v !! h = Some vv ∧ heal_gate endpoint v vv
            ∧ (p, s) ∈ targets_sets order poolIndex vv.
Proof.
  unfold targets_servers, heal_gate. rewrite list_elem_of_bind. split.
  - intros ([h vv] & Hin & Hkv%(elem_of_range order order_perm)). simpl in Hin.
    destruct (_ || _) eqn:Hg; [|by apply elem_of_nil in Hin].
    exists h, vv. split_and!; [done| |done].
    apply orb_true_iff in Hg as [?%bool_decide_eq_true|?%bool_decide_eq_true]; auto.
  - intros (h & vv & Hvv & Hg & Hin). exists (h, vv). split.
    + simpl. destruct (_ || _) eqn:Hg'; [done|].
      apply orb_false_iff in Hg' as [?%bool_decide_eq_false ?%bool_decide_eq_false].
      by destruct Hg.
    + by apply (elem_of_range order order_perm).
Qed.

Lemma NoDup_targets_sets poolIndex vv :
  (∀ si, is_Some (Server.Sets vv !! si) → is_int si) →
  NoDup (targets_sets order poolIndex vv).
Proof.
  intros Hint. unfold targets_sets.
  apply NoDup_fmap_2_strong; [|apply NoDup_range].
  intros [k1 v1] [k2 v2] H1%(elem_of_range order order_perm)
    H2%(elem_of_range order order_perm) [= E].
  apply int_sub_inj in E; [|apply Hint; by eexists..].
  simpl in E. subst. congruence.
Qed.

Lemma NoDup_targets_servers b PI endpoint poolIndex v :
  (∀ h vv, Pool.Servers v !! h = Some vv → server_ok b PI h vv) →
  NoDup (targets_servers order endpoint poolIndex v).
Proof.
  intros Hok. unfold targets_servers. apply NoDup_bind; [| |apply NoDup_range].
  - intros [h1 vv1] [h2 vv2] [p s] H1%(elem_of_range order order_perm)
      H2%(elem_of_range order order_perm). simpl.
    destruct (_ || _) eqn:Hg1; [|by intros ?%elem_of_nil].
    destruct (bool_decide (endpoint = Server.Endpoint vv2) || _) eqn:Hg2;
      [|by intros _ ?%elem_of_nil].
    intros _ _. assert (h1 = h2) as ->; [|congruence].
    destruct (Hok _ _ H1) as (HE1 & _). destruct (Hok _ _ H2) as (HE2 & _).
    apply orb_true_iff in Hg1 as [Hg1%bool_decide_eq_true|Hg1%bool_decide_eq_true];
      [|by eapply map_size_1_key].
    apply orb_true_iff in Hg2 as [Hg2%bool_decide_eq_true|Hg2%bool_decide_eq_true];
      [|by eapply map_size_1_key].
    congruence.
  - intros [h vv] Hin%(elem_of_range order order_perm). simpl.
    destruct (_ || _); [|apply NoDup_nil_2].
    apply NoDup_targets_sets. intros si [vw Hsi].
    destruct (Hok _ _ Hin) as (_ & _ & Hv). by destruct (Hv _ _ Hsi) as (_ & _ & _ & ? & _).
Qed.

Lemma foldl_opt_is_Some {A B} (f : B → A → option B) l bb :
  (∀ bb a, a ∈ l → is_Some (f bb a)) → is_Some (foldl_opt f bb l).
Proof.
  revert bb. induction l as [|a l IH]; intros bb Hf; simpl; [by eexists|].
  destruct (Hf bb a) as [b' ->]; [by left|].
  apply IH. intros bb' a' Hin. apply Hf. by right.
Qed.

(** The monitors that [heal] starts on a topology. *)
Lemma heal_pools_targets b ps endpoint :
  topology_ok b ps →
  ∃ m spawned,
    heal_pools order endpoint ps ∅ = Some (m, spawned)
    ∧ (∀ p s, (p, s) ∈ spawned ↔ heal_target ps endpoint p s)
    ∧ NoDup spawned
    ∧ (∀ p s, (p, s) ∈ spawned → m !! Sprintf_d_slash_d p s = Some 1).
Proof.
  intros Hok. unfold heal_pools.
  destruct (foldl_opt_is_Some
    (λ acc (kv : string * Pool.t),
       match Atoi kv.1 with
       | None => None
       | Some poolIndex => Some (heal_servers order endpoint poolIndex kv.2 acc)
       end) (range order ps) (∅, [])) as [[m spawned] Hfold].
  { intros acc [PI v] Hin%(elem_of_range order order_perm). simpl.
    destruct (proj2 Hok PI) as (z & Hz & ->); [by eexists|].
    rewrite Atoi_Itoa by done. by eexists. }
  exists m, spawned. split; [done|].
  destruct (heal_pools_spec _ _ _ _ Hfold) as [Hsp Hreg]. simpl in Hsp.
  subst spawned. split_and!.
  - intros p s. rewrite list_elem_of_bind. unfold heal_target. split.
    + intros ([PI v] & Hin & Hkv%(elem_of_range order order_perm)). simpl in Hin.
      destruct (Atoi PI) as [pid|] eqn:Hpid; [|by apply elem_of_nil in Hin].
      simpl in Hin. apply elem_of_targets_servers in Hin as (h & vv & Hvv & Hg & Hin).
      apply elem_of_targets_sets in Hin as (si & Hsi & -> & ->).
      by exists PI, v, h, vv, si, pid.
    + intros (PI & v & h & vv & si & pid & HPI & Hpid & Hvv & Hg & Hsi & -> & ->).
      exists (PI, v). split; [|by apply (elem_of_range order order_perm)].
      simpl. rewrite Hpid. simpl. apply elem_of_targets_servers.
      exists h, vv. split_and!; [done..|]. apply elem_of_targets_sets. by exists si.
  - apply NoDup_bind; [| |apply NoDup_range].
    + intros [PI1 v1] [PI2 v2] [p s] H1%(elem_of_range order order_perm)
        H2%(elem_of_range order order_perm). simpl.
      destruct (Atoi PI1) as [pid1|] eqn:Hpid1; [|by intros ?%elem_of_nil].
      destruct (Atoi PI2) as [pid2|] eqn:Hpid2; [|by intros _ ?%elem_of_nil].
      simpl.
      intros (h1 & vv1 & _ & _ & (si1 & _ & Hp1 & _)%elem_of_targets_sets)
        %elem_of_targets_servers
        (h2 & vv2 & _ & _ & (si2 & _ & Hp2 & _)%elem_of_targets_sets)
        %elem_of_targets_servers.
      assert (pid1 = pid2) as ->.
      { apply int_sub_inj; [by eapply Atoi_is_int..|congruence]. }
      assert (PI1 = PI2) as ->; [|congruence].
      eapply topology_ok_key_inj; eauto.
    + intros [PI v] Hin%(elem_of_range order order_perm). simpl.
      destruct (Atoi PI) as [pid|]; [|apply NoDup_nil_2]. simpl.
      apply (NoDup_targets_servers b PI). intros h vv Hvv.
      apply (proj1 Hok). unfold server_at. by rewrite Hin.
  - intros p s Hin. apply Hreg; [|done]. by intros ?? ?%elem_of_nil.
Qed.

End Heal.

(** C5 (as amended) — Heal coverage.  On every topology [heal] runs to the
    end of its first loop and starts exactly one monitor for each set held
    by a server that passes its gate — the server whose hostname is the
    [-endpoint] flag, or the only server of its pool — and for no other
    set; each started pair is registered with count 1, and the first call
    of every monitor starts a recursive scan of scan mode 1 that is not a
    dry run, for its pool and set. *)
Theorem C5_heal_coverage url_Parse order endpoint info ps total :
  order_ok order →
  getInfra url_Parse order info = Some (ps, total) →
  ∃ m spawned,
    heal url_Parse order endpoint info = Some (m, spawned)
    ∧ (∀ p s, (p, s) ∈ spawned ↔ heal_target ps endpoint p s)
    ∧ NoDup spawned
    ∧ (∀ p s, (p, s) ∈ spawned → m !! Sprintf_d_slash_d p s = Some 1)
    ∧ (∀ p s a answers m',
         head (calls (healSet p s (a :: answers) m'))
         = Some (madmin.mkHealCall "" ""
                   (madmin.mkHealOpts true false false false 1 false false p s)
                   "" true false)).
Proof.
  intros Hord Hinfra.
  pose proof (getInfra_topology_ok _ _ Hord _ _ _ Hinfra) as Hok.
  destruct (heal_pools_targets order Hord _ ps endpoint Hok)
    as (m & spawned & Hheal & Hin & Hnd & Hreg).
  exists m, spawned. unfold heal. rewrite Hinfra.
  split_and!; [done..|].
  intros p s a answers m'. destruct a as [|token items]; simpl; [done|].
  assert (∀ token m issued c,
    head issued = Some c →
    head (calls (healSet_poll p s token answers m issued)) = Some c) as Hpoll.
  { induction answers as [|a' l IH]; intros tk m0 issued c Hc; simpl; [done|].
    assert (head (issued ++ [madmin.mkHealCall "" "" (healOpts_of p s) tk false false])
            = Some c) as Hc'.
    { destruct issued; [done|]. done. }
    destruct a' as [|tk' items']; [done|].
    destruct (healSet_items items') as [inv [|]]; [done|]. by apply IH. }
  by apply Hpoll.
Qed.

(** With [-endpoint a], set 1 of pool 0, which is on servers [b] and [c],
    gets no monitor. *)
Lemma C5_counterexample : ¬ heal_covers demo_Parse order_id "a" demo_heal.
Proof.
  intros (m & spawned & Hheal & Hall).
  assert (from_option
            (λ x : gmap string Z * list (Z * Z), bool_decide ((0, 1) ∈ x.2)) true
            (heal demo_Parse order_id "a" demo_heal) = false) as Hc.
  { vm_compute. reflexivity. }
  rewrite Hheal in Hc. clear Hheal. simpl in Hc.
  apply bool_decide_eq_false in Hc. apply Hc.
  apply (Hall (disk 0 1 "c" "/d2" "ok")).
  unfold demo_heal. simpl. do 3 right. by left.
Qed.

(** ** The first round *)

Lemma elem_of_write_failure order b ps0 P st e :
  order_ok order → topology_ok b ps0 → sched_inv ps0 P st →
  e ∈ write_failure order st ↔ is_Some (unhealthy st !! e).
Proof.
  intros Hord Hok Hinv. unfold write_failure. rewrite list_elem_of_fmap. split.
  - intros ([e' s] & -> & Hin%(elem_of_range order Hord)). simpl.
    destruct (inv_unhealthy _ _ _ Hinv _ _ Hin) as (PI & Hs & _).
    destruct (proj1 Hok _ _ _ Hs) as (HE & _). rewrite HE. by exists s.
  - intros [s Hs]. exists (e, s). split; [|by apply (elem_of_range order Hord)].
    destruct (inv_unhealthy _ _ _ Hinv _ _ Hs) as (PI & Hs' & _).
    by destruct (proj1 Hok _ _ _ Hs') as (HE & _).
Qed.

Lemma sched_inv_keys ps0 P st PI h :
  sched_inv ps0 P st → (PI, h) ∈ P → (PI, h) ∈ server_keys ps0.
Proof.
  intros Hinv Hin.
  destruct (inv_scheduled _ _ _ Hinv _ _ Hin) as (s0 & Hs0 & _).
  apply elem_of_server_keys. by eexists.
Qed.

Lemma sched_inv_size ps0 P st :
  sched_inv ps0 P st → (size P ≤ size (server_keys ps0))%nat.
Proof.
  intros Hinv. apply subseteq_size. intros [PI h].
  apply (sched_inv_keys _ _ _ _ _ Hinv).
Qed.

(** The state after the first pass over the pools, when there is a server. *)
Lemma makeHostfile_first_round url_Parse order info out ps0 total PI0 h0 :
  order_ok order →
  Z.of_nat (length (madmin.Disks info)) ≤ int_max →
  getInfra url_Parse order info = Some (ps0, total) →
  makeHostfile url_Parse order info = Some out →
  is_Some (server_at ps0 PI0 h0) →
  ∃ P1 st1 P',
    sched_inv ps0 P1 st1
    ∧ grows ∅ (mkSched ps0 ∅ ∅ 0) P1 st1 0 (stringKeysSorted order ps0)
    ∧ (∀ PI h, is_Some (server_at ps0 PI h) →
               ∃ pid, Atoi PI = Some pid ∧ settled ps0 P1 st1 0 pid PI h)
    ∧ sched_inv ps0 P' (final out) ∧ P1 ⊆ P' ∧ sched_le st1 (final out).
Proof.
  intros Hord Hlen Hinfra (ps0' & total' & Hinfra' & Hrounds & _)%makeHostfile_Some Hsrv.
  rewrite Hinfra in Hinfra'. injection Hinfra' as <- <-.
  pose proof (getInfra_topology_ok _ _ Hord _ _ _ Hinfra) as Hok.
  destruct (getInfra_totalServers _ _ Hord _ _ _ Hlen Hinfra) as [Ht _].
  assert (0 < total) as Hpos.
  { apply elem_of_server_keys in Hsrv.
    assert (size (server_keys ps0) ≠ 0%nat); [|lia].
    intros Hz%size_empty_iff. by apply Hz in Hsrv. }
  change (seq 0 200) with (0%nat :: seq 1 199) in Hrounds.
  cbn [makeHostfile_rounds processed] in Hrounds.
  destruct (Z.geb_spec 0 total) as [?|_]; [lia|].
  destruct (foldl_opt _ _ (stringKeysSorted order ps0)) as [st1|] eqn:Hpools; [|done].
  destruct (makeHostfile_pools_inv order Hord _ _ Hok _ _ _ _ _
              (sched_inv_init ps0) Hpools) as (P1 & Hinv1 & Hg1 & Hset1).
  destruct (makeHostfile_rounds_inv order Hord _ _ Hok _ _ _ _ _ _ _ Hinv1 Hrounds)
    as (P' & Hinv' & Hsub & Hle).
  exists P1, st1, P'. split_and!; try done.
  intros PI h Hh. apply Hset1; [|done].
  apply (elem_of_stringKeysSorted order Hord). destruct Hh as [s Hs].
  by eapply server_at_pool.
Qed.

Lemma placed_init ps0 i pid e : placed (mkSched ps0 ∅ ∅ 0) i pid e = None.
Proof. unfold placed. simpl. by rewrite lookup_empty. Qed.

(** A server that is scheduled is healthy, and so is a server that is in
    a round. *)
Lemma sched_inv_assigned_healthy b ps0 P st PI h s i :
  topology_ok b ps0 → sched_inv ps0 P st →
  server_at ps0 PI h = Some s → assigned st PI h i → (PI, h) ∈ P ∧ healthy s.
Proof.
  intros Hok Hinv Hs (pid & Hpid & [s' Hpl]).
  destruct (inv_placed _ _ _ Hinv _ _ _ _ Hpl) as (PI' & s0 & HPI' & Hs0 & _ & Hin).
  assert (PI' = PI) as ->.
  { eapply topology_ok_key_inj; eauto using server_at_pool. }
  split; [done|].
  destruct (inv_scheduled _ _ _ Hinv _ _ Hin) as (s1 & Hs1 & Hh & _).
  rewrite Hs in Hs1. by injection Hs1 as <-.
Qed.

(** C7 (as amended) — Sole server.  The only server of a pool is treated
    as any other server.  When one of its sets has [CanReboot = false], its
    host name is written to the failure file and, as the server of that
    pool, it is assigned to no round.  When all its sets have
    [CanReboot = true], it is assigned to round 0 and to no other round, and
    its host name is a line of [round-0].  The files list host names: if the
    host serves no other pool then, in the first case, its name is in no
    round file and, in the second, its name is not in the failure file and
    in no round file but [round-0]; a host that also serves another pool is
    scheduled on its own as a server of that pool and can be listed in the
    files on that account. *)
Theorem C7_sole_server_same_rule url_Parse order info out ps total PI v h s :
  order_ok order →
  Z.of_nat (length (madmin.Disks info)) ≤ int_max →
  getInfra url_Parse order info = Some (ps, total) →
  makeHostfile url_Parse order info = Some out →
  ps !! PI = Some v → Pool.Servers v !! h = Some s →
  size (Pool.Servers v) = 1%nat →
  (¬ healthy s →
   h ∈ failure_file out
   ∧ (∀ i, ¬ assigned (final out) PI h i)
   ∧ (one_pool ps h → ∀ i, ¬ in_round out i h))
  ∧ (healthy s →
     assigned (final out) PI h 0
     ∧ (∀ i, assigned (final out) PI h i → i = 0%nat)
     ∧ in_round out 0 h
     ∧ (one_pool ps h →
        (h ∉ failure_file out) ∧ ∀ i, in_round out i h → i = 0%nat)).
Proof.
  intros Hord Hlen Hinfra Hout Hv Hs Hsole.
  assert (server_at ps PI h = Some s) as Hsrv.
  { unfold server_at. by rewrite Hv. }
  pose proof (getInfra_topology_ok _ _ Hord _ _ _ Hinfra) as Hok.
  destruct (makeHostfile_first_round _ _ _ _ _ _ PI h Hord Hlen Hinfra Hout)
    as (P1 & st1 & P' & Hinv1 & Hg1 & Hset1 & Hinv' & Hsub & Hle);
    [by eexists|].
  destruct (Hset1 PI h) as (pid & Hpid & Hset); [by eexists|].
  (* A non-empty part of round 0 for this pool holds the sole server. *)
  assert (settled ps P1 st1 0 pid PI h →
          (PI, h) ∈ P1 ∨ (¬ healthy s ∧ is_Some (unhealthy st1 !! h))) as Hcases.
  { intros [Hin|[(s' & Hs' & Hbad & Hu)|[_ [e [rv He]]]]].
    - by left.
    - right. rewrite Hsrv in Hs'. injection Hs' as <-. by split.
    - left.
      destruct (inv_placed _ _ _ Hinv1 _ _ _ _ He) as (PI' & s0 & HPI' & Hs0 & _ & Hin).
      assert (PI' = PI) as ->.
      { eapply topology_ok_key_inj; eauto using server_at_pool. }
      assert (e = h) as ->; [|done].
      unfold server_at in Hs0. rewrite Hv in Hs0. simpl in Hs0.
      eapply map_size_1_key; eauto. }
  destruct (makeHostfile_Some _ _ _ _ Hout) as (? & ? & _ & _ & Hfile & _).
  destruct (makeHostfile_in_round _ _ _ _ _ _ Hord Hinfra Hout)
    as (_ & _ & _ & Hround).
  assert (∀ i, one_pool ps h → in_round out i h → assigned (final out) PI h i)
    as Hhere.
  { intros i Hone (PI' & Hs' & Hi)%Hround.
    assert (PI' = PI) as ->; [|done].
    apply (one_pool_server_at ps h); [done..|by eexists]. }
  split.
  - intros Hbad.
    assert (∀ i, ¬ assigned (final out) PI h i) as Hno.
    { intros i Hi.
      by destruct (sched_inv_assigned_healthy _ _ _ _ _ _ _ _ Hok Hinv' Hsrv Hi). }
    split_and!; [|done|by intros Hone i Hi%Hhere; [apply (Hno i)|]].
    + rewrite Hfile. apply (elem_of_write_failure order _ _ _ _ _ Hord Hok Hinv').
      destruct (Hcases Hset) as [Hin|[_ Hu]]; [|by apply Hle].
      destruct (inv_scheduled _ _ _ Hinv1 _ _ Hin) as (s1 & Hs1 & Hh & _).
      rewrite Hsrv in Hs1. injection Hs1 as <-. by destruct Hbad.
  - intros Hh.
    assert (assigned (final out) PI h 0) as H0.
    { destruct (Hcases Hset) as [Hin|[? _]]; [|done].
      destruct (inv_scheduled _ _ _ Hinv1 _ _ Hin)
        as (s1 & Hs1 & _ & i & pid' & Hpid' & Hpl).
      destruct Hg1 as (_ & _ & _ & Hnew).
      destruct (Hnew i pid' h) as [[? Hinit]|[-> _]]; [by eexists| |].
      - by rewrite placed_init in Hinit.
      - exists pid'. split; [done|]. eexists. by apply Hle. }
    assert (∀ i, assigned (final out) PI h i → i = 0%nat) as Honly.
    { intros i (pid1 & Hpid1 & Hi).
      destruct H0 as (pid0 & Hpid0 & H0).
      assert (pid1 = pid0) as -> by congruence.
      by apply (inv_once _ _ _ Hinv' _ _ _ _ Hi H0). }
    split_and!; [done..| |].
    + apply Hround. exists PI. split; [by eexists|done].
    + intros Hone. split; [|by intros i Hi%Hhere; [apply Honly|]].
      rewrite Hfile.
      intros [s' Hs']%(elem_of_write_failure order _ _ _ _ _ Hord Hok Hinv').
      destruct (inv_unhealthy _ _ _ Hinv' _ _ Hs') as (PI' & Hsrv' & Hb).
      assert (PI' = PI) as ->.
      { apply (one_pool_server_at ps h); [done|by eexists..]. }
      rewrite Hsrv in Hsrv'. injection Hsrv' as <-. by destruct Hb.
Qed.

(** The only server of the only pool has one offline disk out of a parity
    of 2: it is written to the failure file. *)
Lemma C7_counterexample : ¬ sole_server_never_fails demo_Parse order_id demo_sole.
Proof.
  intros Hnever.
  assert (bool_decide (is_Some (makeHostfile demo_Parse order_id demo_sole)) = true)
    as [out Hout]%bool_decide_eq_true.
  { vm_compute. reflexivity. }
  assert (bool_decide (is_Some (getInfra demo_Parse order_id demo_sole)) = true)
    as [[ps total] Hinfra]%bool_decide_eq_true.
  { vm_compute. reflexivity. }
  assert (from_option
            (λ x : gmap string Pool.t * Z,
               bool_decide
                 (is_Some (x.1 !! "1")
                  ∧ size (Pool.Servers (default (Pool.mk ∅) (x.1 !! "1"))) = 1%nat
                  ∧ is_Some (Pool.Servers (default (Pool.mk ∅) (x.1 !! "1")) !! "a")))
            false (getInfra demo_Parse order_id demo_sole) = true) as Hpool.
  { vm_compute. reflexivity. }
  assert (from_option (λ out, bool_decide ("a" ∈ failure_file out)) false
            (makeHostfile demo_Parse order_id demo_sole) = true) as Hfail.
  { vm_compute. reflexivity. }
  rewrite Hinfra in Hpool. rewrite Hout in Hfail. simpl in Hpool, Hfail.
  apply bool_decide_eq_true in Hpool as ([v Hv] & Hsize & Ha).
  apply bool_decide_eq_true in Hfail.
  rewrite Hv in Hsize, Ha. simpl in Hsize, Ha.
  exact (Hnever out ps total "1" v "a" Hout Hinfra Hv Hsize Ha Hfail).
Qed.

(** ** Progress of the scheduler *)

Lemma healthyb_healthy s : healthyb s = true ↔ healthy s.
Proof. unfold healthyb. by rewrite bool_decide_eq_true. Qed.

Lemma elem_of_pending ps0 PI P PI' h :
  (PI', h) ∈ pending ps0 PI P
  ↔ PI' = PI ∧ ((PI, h) ∉ P) ∧ ∃ s, server_at ps0 PI h = Some s ∧ healthy s.
Proof.
  unfold pending. rewrite elem_of_filter, elem_of_server_keys. simpl. split.
  - intros ((-> & HnP & Hh) & [s Hs]). split_and!; [done..|].
    rewrite Hs in Hh. simpl in Hh. exists s. by rewrite <- healthyb_healthy.
  - intros (-> & HnP & s & Hs & Hh). rewrite Hs. simpl.
    split_and!; [done..|by apply healthyb_healthy|by eexists].
Qed.

Lemma pending_mono ps0 PI P P' : P ⊆ P' → pending ps0 PI P' ⊆ pending ps0 PI P.
Proof.
  intros Hsub [PI' h]. rewrite !elem_of_pending.
  intros (-> & HnP & Hs). split_and!; [done| |done]. intros Hin. by apply HnP, Hsub.
Qed.

Lemma pending_size ps0 PI v :
  ps0 !! PI = Some v → (size (pending ps0 PI ∅) ≤ size (Pool.Servers v))%nat.
Proof.
  intros Hv.
  rewrite <- (length_map_to_list (Pool.Servers v)).
  rewrite <- (length_fmap (λ kv : string * Server.t, (PI, kv.1))).
  rewrite <- (size_list_to_set (C:=gset (string * string))).
  - apply subseteq_size. intros [PI' h] (-> & _ & s & Hs & _)%elem_of_pending.
    apply elem_of_list_to_set, list_elem_of_fmap. exists (h, s). split; [done|].
    apply elem_of_map_to_list. unfold server_at in Hs. by rewrite Hv in Hs.
  - apply NoDup_fmap_2_strong; [|apply NoDup_map_to_list].
    intros [h1 s1] [h2 s2] H1%elem_of_map_to_list H2%elem_of_map_to_list [= ->].
    congruence.
Qed.

Section Progress.

Variable order : ∀ A : Type, list A → list A.
Hypothesis order_perm : order_ok order.
Variable b : madmin.BackendInfo.
Variable ps0 : gmap string Pool.t.
Hypothesis ps0_ok : topology_ok b ps0.

(** One pass over the pools, starting with an empty round [i], schedules
    at least one pending server of every pool that has one. *)
Lemma makeHostfile_pools_progress P i st poolss st' PI :
  sched_inv ps0 P st →
  (∀ pid e, placed st i pid e = None) →
  PI ∈ poolss →
  foldl_opt (makeHostfile_pool order i) st poolss = Some st' →
  ∃ P', sched_inv ps0 P' st' ∧ grows P st P' st' i poolss
        ∧ (pending ps0 PI P' = ∅
           ∨ (size (pending ps0 PI P') < size (pending ps0 PI P))%nat).
Proof.
  intros Hinv Hfresh HPI Hfold.
  destruct (makeHostfile_pools_inv order order_perm b ps0 ps0_ok _ _ _ _ _ Hinv Hfold)
    as (P' & Hinv' & Hg & Hset).
  exists P'. split_and!; [done..|].
  destruct (decide (pending ps0 PI P' = ∅)) as [?|Hne]; [by left|right].
  apply set_choose_L in Hne as [[PI' h] Hin].
  apply elem_of_pending in Hin as (-> & HnP' & s & Hs & Hh).
  destruct (Hset PI h HPI) as (pid & Hpid & Hsettled); [by eexists|].
  destruct Hg as (Hsub & Hle & Hnew & Hent).
  destruct Hsettled as [?|[(s' & Hs' & Hbad & _)|[_ [e He]]]]; [done| |].
  { rewrite Hs in Hs'. injection Hs' as <-. by destruct Hbad. }
  destruct (Hent _ _ _ He) as [[? Hold]|(_ & PI' & _ & HPI' & HinP' & HnP)].
  { by rewrite Hfresh in Hold. }
  destruct (inv_scheduled _ _ _ Hinv' _ _ HinP') as (s1 & Hs1 & Hh1 & _).
  assert (PI' = PI) as ->.
  { eapply topology_ok_key_inj; eauto using server_at_pool. }
  apply subset_size. split.
  - by apply pending_mono.
  - intros Hsub'. assert ((PI, e) ∈ pending ps0 PI P') as Hc.
    { apply Hsub', elem_of_pending. split_and!; [done..|]. by exists s1. }
    by apply elem_of_pending in Hc as (_ & ? & _).
Qed.

(** The loop over the rounds, all of them still empty: every round that
    is gone through schedules a pending server of every pool that has
    one, and the report is printed only when every server is scheduled. *)
Lemma makeHostfile_rounds_progress P total poolss rounds st st' rep PI :
  total = Z.of_nat (size (server_keys ps0)) → total ≤ int_max →
  NoDup rounds →
  (∀ i pid e, i ∈ rounds → placed st i pid e = None) →
  PI ∈ poolss →
  sched_inv ps0 P st →
  makeHostfile_rounds order total poolss rounds st = Some (st', rep) →
  ∃ P', sched_inv ps0 P' st' ∧ P ⊆ P'
        ∧ (pending ps0 PI P' = ∅
           ∨ (size (pending ps0 PI P') + length rounds
              ≤ size (pending ps0 PI P))%nat)
        ∧ (∀ r, rep = Some r → r = (total, total) ∧ P' = server_keys ps0).
Proof.
  intros Htotal Hmax Hnd Hfresh HPI. revert P st Hnd Hfresh.
  induction rounds as [|i rounds IH]; intros P st Hnd Hfresh Hinv; simpl.
  - intros [= <- <-]. exists P. split_and!; [done..|right; lia|done].
  - apply NoDup_cons in Hnd as [Hi Hnd].
    assert (processed st = Z.of_nat (size P)) as Hproc.
    { rewrite (inv_processed _ _ _ Hinv). apply wrap_id.
      pose proof (sched_inv_size _ _ _ Hinv).
      unfold is_int, int_min, int_max in *. lia. }
    destruct (Z.geb_spec (processed st) total) as [Hge|Hlt].
    + intros [= <- <-].
      assert (P = server_keys ps0) as HP.
      { apply set_subseteq_size_eq.
        - intros [PI' h]. apply (sched_inv_keys _ _ _ _ _ Hinv).
        - lia. }
      exists P. split_and!; [done..| |].
      * left. apply set_eq. intros [PI' h]. rewrite elem_of_pending. split.
        -- intros (_ & HnP & s & Hs & _). destruct HnP. rewrite HP.
           apply elem_of_server_keys. by eexists.
        -- by intros ?%elem_of_empty.
      * intros r [= <-]. split; [|done]. f_equal.
        pose proof (sched_inv_size _ _ _ Hinv). lia.
    + destruct (foldl_opt _ st poolss) as [st1|] eqn:Hpools; [|done].
      intros Hrounds.
      destruct (makeHostfile_pools_progress P i st poolss st1 PI Hinv)
        as (P1 & Hinv1 & Hg1 & Hprog1); [|done..|].
      { intros pid e. apply Hfresh. by left. }
      destruct Hg1 as (Hsub1 & Hle1 & Hnew1 & Hent1).
      destruct (IH P1 st1 Hnd) as (P' & Hinv' & Hsub' & Hprog' & Hrep'); [|done..|].
      { intros i' pid e Hi'.
        destruct (placed st1 i' pid e) as [s'|] eqn:Hpl; [|done].
        destruct (Hent1 i' pid e) as [[? Hold]|[-> _]]; [by eexists| |done].
        rewrite Hfresh in Hold; [done|by right]. }
      exists P'. split_and!; [done|by etrans| |done].
      destruct Hprog' as [?|Hle']; [by left|].
      destruct Hprog1 as [Hempty|Hlt1].
      * left. apply set_eq. intros x. split; [|by intros ?%elem_of_empty].
        intros Hx. rewrite <- Hempty. by apply (pending_mono _ _ _ _ Hsub').
      * right. simpl. lia.
Qed.

(** The report is printed only when every server is scheduled. *)
Lemma makeHostfile_rounds_report P total poolss rounds st st' r :
  total = Z.of_nat (size (server_keys ps0)) → total ≤ int_max →
  sched_inv ps0 P st →
  makeHostfile_rounds order total poolss rounds st = Some (st', Some r) →
  ∃ P', sched_inv ps0 P' st' ∧ r = (total, total) ∧ P' = server_keys ps0.
Proof.
  intros Htotal Hmax. revert P st.
  induction rounds as [|i rounds IH]; intros P st Hinv; simpl; [done|].
  destruct (Z.geb_spec (processed st) total) as [Hge|Hlt].
  - intros [= <- <-]. exists P.
    assert (processed st = Z.of_nat (size P)) as Hproc.
    { rewrite (inv_processed _ _ _ Hinv). apply wrap_id.
      pose proof (sched_inv_size _ _ _ Hinv).
      unfold is_int, int_min, int_max in *. lia. }
    pose proof (sched_inv_size _ _ _ Hinv).
    split_and!; [done|f_equal; lia|].
    apply set_subseteq_size_eq; [|lia].
    intros [PI' h]. apply (sched_inv_keys _ _ _ _ _ Hinv).
  - destruct (foldl_opt _ st poolss) as [st1|] eqn:Hpools; [|done].
    destruct (makeHostfile_pools_inv order order_perm b ps0 ps0_ok _ _ _ _ _ Hinv Hpools)
      as (P1 & Hinv1 & _). by apply (IH P1).
Qed.

(** When no report is printed, the check at the top of the last round
    has failed. *)
Lemma makeHostfile_rounds_no_report P total poolss rounds st st' i_last :
  last rounds = Some i_last →
  sched_inv ps0 P st →
  makeHostfile_rounds order total poolss rounds st = Some (st', None) →
  ∃ P0 st0 P',
    sched_inv ps0 P0 st0 ∧ processed st0 < total
    ∧ sched_inv ps0 P' st' ∧ grows P0 st0 P' st' i_last poolss.
Proof.
  revert P st. induction rounds as [|i rounds IH]; intros P st Hlast Hinv; [done|].
  simpl. destruct (Z.geb_spec (processed st) total) as [Hge|Hlt]; [done|].
  destruct (foldl_opt _ st poolss) as [st1|] eqn:Hpools; [|done].
  destruct (makeHostfile_pools_inv order order_perm b ps0 ps0_ok _ _ _ _ _ Hinv Hpools)
    as (P1 & Hinv1 & Hg1 & _).
  destruct rounds as [|i' rounds].
  - simpl. intros [= <-]. injection Hlast as <-. by exists P, st, P1.
  - intros Hrounds. apply (IH P1 st1); [|done..].
    by rewrite last_cons_cons in Hlast.
Qed.

End Progress.

(** C4 (as amended) — Scheduler completeness.  A server is a host within
    one pool: a host that serves two pools is two servers, scheduled on
    their own, while the failure file and the round files list host names.
    For every topology on which [makeHostfile] does not abort:
    - a host name is a line of the failure file exactly when some server
      with that name has a set that cannot be rebooted, and a line of the
      file of round [i] exactly when some server with that name is assigned
      to round [i];
    - a server with a set that cannot be rebooted is assigned to no round;
    - a server assigned to a round has only sets that can be rebooted, and
      is assigned to no other round;
    - a server whose sets can all be rebooted is assigned to a round when
      its pool has at most 200 servers;
    - hence the name of a host that serves a single pool is never both in
      the failure file and in a round file, and is in one round file at
      most (a host that serves two pools can be in the failure file for one
      and in a round file for the other);
    - the report is printed only when every server is assigned to a round:
      then the failure file is empty; the servers of the failure file are
      not counted, so that with one of them no report is printed;
    - when no report is printed, some server is assigned to no round before
      the last one. *)
Theorem C4_scheduler_completeness url_Parse order info out ps total :
  order_ok order →
  Z.of_nat (length (madmin.Disks info)) ≤ int_max →
  getInfra url_Parse order info = Some (ps, total) →
  makeHostfile url_Parse order info = Some out →
  (∀ h, h ∈ failure_file out
        ↔ ∃ PI s, server_at ps PI h = Some s ∧ ¬ healthy s)
  ∧ (∀ i h, in_round out i h
            ↔ ∃ PI, is_Some (server_at ps PI h) ∧ assigned (final out) PI h i)
  ∧ (∀ PI h s, server_at ps PI h = Some s → ¬ healthy s →
               ∀ i, ¬ assigned (final out) PI h i)
  ∧ (∀ PI h s i j, server_at ps PI h = Some s →
       assigned (final out) PI h i → assigned (final out) PI h j →
       healthy s ∧ i = j)
  ∧ (∀ PI v h s, ps !! PI = Some v → Pool.Servers v !! h = Some s →
       healthy s → (size (Pool.Servers v) ≤ 200)%nat →
       ∃ i, assigned (final out) PI h i)
  ∧ (∀ h, one_pool ps h →
       (h ∈ failure_file out → ∀ i, ¬ in_round out i h)
       ∧ (∀ i j, in_round out i h → in_round out j h → i = j))
  ∧ (∀ r, report out = Some r →
       r = (total, total) ∧ failure_file out = []
       ∧ ∀ PI h, is_Some (server_at ps PI h) → ∃ i, assigned (final out) PI h i)
  ∧ ((∃ PI h s, server_at ps PI h = Some s ∧ ¬ healthy s) → report out = None)
  ∧ (report out = None →
     ∃ PI h, is_Some (server_at ps PI h)
             ∧ ∀ i, assigned (final out) PI h i → i = 199%nat).
Proof.
  intros Hord Hlen Hinfra Hout.
  pose proof (getInfra_topology_ok _ _ Hord _ _ _ Hinfra) as Hok.
  destruct (getInfra_totalServers _ _ Hord _ _ _ Hlen Hinfra) as [Ht Hmax].
  destruct (makeHostfile_Some _ _ _ _ Hout)
    as (ps' & total' & Hinfra' & Hrounds & Hfile & _).
  rewrite Hinfra in Hinfra'. injection Hinfra' as <- <-.
  destruct (makeHostfile_inv _ _ _ _ Hord Hout) as (ps' & total' & P & Hinfra' & _ & Hinv).
  rewrite Hinfra in Hinfra'. injection Hinfra' as <- <-.
  (* servers with a set that cannot be rebooted *)
  assert (∀ PI h s, server_at ps PI h = Some s → ¬ healthy s →
                    h ∈ failure_file out ∧ ∀ i, ¬ assigned (final out) PI h i)
    as Hbad.
  { intros PI h s Hs Hbad.
    destruct (makeHostfile_first_round _ _ _ _ _ _ PI h Hord Hlen Hinfra Hout)
      as (P1 & st1 & P' & Hinv1 & Hg1 & Hset1 & Hinv' & Hsub & Hle); [by eexists|].
    split.
    - rewrite Hfile. apply (elem_of_write_failure order _ _ _ _ _ Hord Hok Hinv).
      destruct (Hset1 PI h)
        as (pid & Hpid & [Hin|[(s' & _ & _ & Hu)|[(s' & Hs' & Hh) _]]]);
        [by eexists| |by apply Hle|].
      + destruct (inv_scheduled _ _ _ Hinv1 _ _ Hin) as (s1 & Hs1 & Hh & _).
        rewrite Hs in Hs1. injection Hs1 as <-. by destruct Hbad.
      + rewrite Hs in Hs'. injection Hs' as <-. by destruct Hbad.
    - intros i Hi.
      by destruct (sched_inv_assigned_healthy _ _ _ _ _ _ _ _ Hok Hinv Hs Hi). }
  (* the report *)
  assert (∀ r, report out = Some r →
            r = (total, total) ∧ failure_file out = []
            ∧ ∀ PI h, is_Some (server_at ps PI h) →
                      ∃ i, assigned (final out) PI h i) as Hrep.
  { intros r Hr. rewrite Hr in Hrounds.
    destruct (makeHostfile_rounds_report order Hord _ _ Hok _ _ _ _ _ _ _
                Ht Hmax (sched_inv_init ps) Hrounds) as (P' & Hinv' & -> & HP').
    assert (∀ PI h, is_Some (server_at ps PI h) →
                    ∃ s, server_at ps PI h = Some s ∧ healthy s
                         ∧ ∃ i, assigned (final out) PI h i) as Hall.
    { intros PI h Hh. apply elem_of_server_keys in Hh. rewrite <- HP' in Hh.
      destruct (inv_scheduled _ _ _ Hinv' _ _ Hh)
        as (s0 & Hs0 & Hh0 & i & pid & Hpid & Hpl).
      exists s0. split_and!; [done..|]. exists i, pid. split; [done|by eexists]. }
    split_and!; [done| |].
    - destruct (failure_file out) as [|h l] eqn:Hl; [done|]. exfalso.
      assert (h ∈ write_failure order (final out)) as Hin.
      { rewrite <- Hfile. by left. }
      apply (elem_of_write_failure order _ _ _ _ _ Hord Hok Hinv) in Hin as [s Hs].
      destruct (inv_unhealthy _ _ _ Hinv _ _ Hs) as (PI & Hs' & Hb).
      destruct (Hall PI h) as (s1 & Hs1 & Hh1 & _); [by eexists|].
      rewrite Hs' in Hs1. injection Hs1 as <-. by destruct Hb.
    - intros PI h Hh. by destruct (Hall PI h Hh) as (_ & _ & _ & ?). }
  (* the files *)
  assert (∀ h, h ∈ failure_file out →
               ∃ PI s, server_at ps PI h = Some s ∧ ¬ healthy s) as Hfail.
  { intros h Hh. rewrite Hfile in Hh.
    apply (elem_of_write_failure order _ _ _ _ _ Hord Hok Hinv) in Hh as [s Hs].
    destruct (inv_unhealthy _ _ _ Hinv _ _ Hs) as (PI & Hs' & Hb). by exists PI, s. }
  destruct (makeHostfile_in_round _ _ _ _ _ _ Hord Hinfra Hout)
    as (_ & _ & _ & Hround).
  (* a server is in one round at most *)
  assert (∀ PI h s i j, server_at ps PI h = Some s →
            assigned (final out) PI h i → assigned (final out) PI h j →
            healthy s ∧ i = j) as Honce.
  { intros PI h s i j Hs Hi Hj. split.
    - by destruct (sched_inv_assigned_healthy _ _ _ _ _ _ _ _ Hok Hinv Hs Hi).
    - destruct Hi as (pid & Hpid & Hi), Hj as (pid' & Hpid' & Hj).
      assert (pid' = pid) as -> by congruence.
      by apply (inv_once _ _ _ Hinv _ _ _ _ Hi Hj). }
  split_and!.
  - intros h. split; [apply Hfail|].
    intros (PI & s & Hs & Hb). by destruct (Hbad _ _ _ Hs Hb).
  - exact Hround.
  - intros PI h s Hs Hb. by destruct (Hbad _ _ _ Hs Hb).
  - exact Honce.
  - intros PI v h s Hv Hs Hh Hsize.
    destruct (makeHostfile_rounds_progress order Hord _ _ Hok ∅ total
                (stringKeysSorted order ps) (seq 0 200) (mkSched ps ∅ ∅ 0)
                (final out) (report out) PI Ht Hmax)
      as (P' & Hinv' & _ & Hprog & _).
    { apply NoDup_seq. }
    { intros. apply placed_init. }
    { apply (elem_of_stringKeysSorted order Hord). by eexists. }
    { apply sched_inv_init. }
    { done. }
    assert (pending ps PI P' = ∅) as Hempty.
    { destruct Hprog as [?|Hle]; [done|].
      pose proof (pending_size ps PI v Hv). rewrite length_seq in Hle.
      apply leibniz_equiv, size_empty_iff. lia. }
    assert (server_at ps PI h = Some s) as Hsrv.
    { unfold server_at. by rewrite Hv. }
    destruct (decide ((PI, h) ∈ P')) as [Hin|Hnin].
    + destruct (inv_scheduled _ _ _ Hinv' _ _ Hin)
        as (s0 & Hs0 & Hh0 & i & pid & Hpid & Hpl).
      exists i, pid. split; [done|by eexists].
    + assert ((PI, h) ∈ pending ps PI P') as Hc.
      { apply elem_of_pending. split_and!; [done..|]. by exists s. }
      rewrite Hempty in Hc. by apply elem_of_empty in Hc.
  - intros h Hone. split.
    + intros (PI & s & Hs & Hb)%Hfail i (PI' & Hs' & Hi)%Hround.
      assert (PI' = PI) as ->.
      { apply (one_pool_server_at ps h); [done..|by eexists]. }
      by destruct (Hbad _ _ _ Hs Hb) as [_ Hno]; apply (Hno i).
    + intros i j (PI & [s Hs] & Hi)%Hround (PI' & Hs' & Hj)%Hround.
      assert (PI' = PI) as ->.
      { apply (one_pool_server_at ps h); [done..|by eexists]. }
      by destruct (Honce _ _ _ _ _ Hs Hi Hj).
  - exact Hrep.
  - intros (PI & h & s & Hs & Hb). destruct (report out) as [r|] eqn:Hr; [|done].
    destruct (Hrep r eq_refl) as (_ & Hnil & _).
    destruct (Hbad _ _ _ Hs Hb) as [Hin _]. rewrite Hnil in Hin.
    by apply elem_of_nil in Hin.
  - intros Hnone. rewrite Hnone in Hrounds.
    assert (last (seq 0 200) = Some 199%nat) as Hlast by by vm_compute.
    destruct (makeHostfile_rounds_no_report order Hord _ _ Hok _ _ _ _ _ _ _
                Hlast (sched_inv_init ps) Hrounds)
      as (P0 & st0 & P' & Hinv0 & Hlt & Hinv' & Hg).
    assert (processed st0 = Z.of_nat (size P0)) as Hproc.
    { rewrite (inv_processed _ _ _ Hinv0). apply wrap_id.
      pose proof (sched_inv_size _ _ _ Hinv0).
      unfold is_int, int_min, int_max in *. lia. }
    assert (∃ x, x ∈ server_keys ps ∧ x ∉ P0) as ([PI h] & Hx & HnP0).
    { destruct (decide (server_keys ps ∖ P0 = ∅)) as [He|Hne].
      - assert (server_keys ps ⊆ P0) as Hsub.
        { intros x Hx. destruct (decide (x ∈ P0)) as [?|Hn]; [done|].
          assert (x ∈ server_keys ps ∖ P0) as Hd by by apply elem_of_difference.
          rewrite He in Hd. by apply elem_of_empty in Hd. }
        apply subseteq_size in Hsub. lia.
      - apply set_choose_L in Hne as [x Hd]. exists x.
        by apply elem_of_difference in Hd. }
    exists PI, h. split; [by apply elem_of_server_keys|].
    intros i (pid & Hpid & Hi).
    destruct Hg as (_ & _ & _ & Hent).
    destruct (Hent _ _ _ Hi) as [[s' Hold]|[-> _]]; [|done].
    destruct (inv_placed _ _ _ Hinv0 _ _ _ _ Hold) as (PI' & s0 & HPI' & Hs0 & _ & Hin).
    assert (PI' = PI) as ->; [|done].
    apply elem_of_server_keys in Hx as [s Hs].
    eapply topology_ok_key_inj; eauto using server_at_pool.
Qed.



(** On the four servers with one offline disk every server goes to the
    failure file and no report is printed; of the 201 servers that share a
    set, [h99], the last in string order, is written to no file; the host
    [b] of [demo_both], bad in pool 1 and good in pool 2, is written both
    to the failure file and to [round-0]. *)
Lemma C4_counterexample :
  ¬ scheduler_complete demo_Parse order_id demo4bad
  ∧ ¬ every_server_accounted demo_Parse order_id demo201
  ∧ ¬ every_server_accounted demo_Parse order_id demo_both.
Proof.
  split_and!.
  - intros [_ (out & Hout & Hrep)].
    assert (from_option (λ out, bool_decide (is_Some (report out))) false
              (makeHostfile demo_Parse order_id demo4bad) = false) as Hc.
    { vm_compute. reflexivity. }
    rewrite Hout in Hc. clear Hout. simpl in Hc.
    apply bool_decide_eq_false in Hc. exact (Hc Hrep).
  - intros (out & ps & total & Hout & Hinfra & Hall).
    assert (from_option
              (λ x : gmap string Pool.t * Z,
                 bool_decide (is_Some (server_at x.1 "1" "h99"))) false
              (getInfra demo_Parse order_id demo201) = true) as Hsrv.
    { vm_compute. reflexivity. }
    rewrite Hinfra in Hsrv. clear Hinfra. simpl in Hsrv.
    apply bool_decide_eq_true in Hsrv.
    assert (from_option
              (λ out, bool_decide ("h99" ∈ mjoin (round_files out))
                      || bool_decide ("h99" ∈ failure_file out)) true
              (makeHostfile demo_Parse order_id demo201) = false) as Hc.
    { vm_compute. reflexivity. }
    rewrite Hout in Hc. clear Hout. simpl in Hc.
    apply orb_false_iff in Hc as [Hr%bool_decide_eq_false Hf%bool_decide_eq_false].
    destruct (Hall _ _ Hsrv) as [[Hin _]|[_ Hin]].
    + exact (Hr Hin).
    + exact (Hf Hin).
  - intros (out & ps & total & Hout & Hinfra & Hall).
    assert (from_option
              (λ x : gmap string Pool.t * Z,
                 bool_decide (is_Some (server_at x.1 "2" "b"))) false
              (getInfra demo_Parse order_id demo_both) = true) as Hsrv.
    { vm_compute. reflexivity. }
    rewrite Hinfra in Hsrv. clear Hinfra. simpl in Hsrv.
    apply bool_decide_eq_true in Hsrv.
    assert (from_option
              (λ out, bool_decide ("b" ∈ mjoin (round_files out))
                      && bool_decide ("b" ∈ failure_file out)) false
              (makeHostfile demo_Parse order_id demo_both) = true) as Hc.
    { vm_compute. reflexivity. }
    rewrite Hout in Hc. clear Hout. simpl in Hc.
    apply andb_true_iff in Hc as [Hr%bool_decide_eq_true Hf%bool_decide_eq_true].
    destruct (Hall _ _ Hsrv) as [[_ Hnin]|[Hnin _]].
    + exact (Hnin Hf).
    + exact (Hnin Hr).
Qed.

(** * The properties at concrete inputs *)

Lemma order_id_ok : order_ok order_id.
Proof. intros A l. reflexivity. Qed.

Lemma order_rev_ok : order_ok order_rev.
Proof. intros A l. apply reverse_Permutation. Qed.

Lemma C1_witness :
  ∃ out ps total,
    getInfra demo_Parse order_id demo_heal = Some (ps, total)
    ∧ makeHostfile demo_Parse order_id demo_heal = Some out
    ∧ in_round out 0 "a" ∧ in_round out 0 "c"
    ∧ one_pool ps "a" ∧ one_pool ps "c"
    ∧ ¬ hosts_share_set ps "a" "c".
Proof.
  assert (bool_decide (is_Some (makeHostfile demo_Parse order_id demo_heal)) = true)
    as [out Hout]%bool_decide_eq_true.
  { vm_compute. reflexivity. }
  assert (bool_decide (is_Some (getInfra demo_Parse order_id demo_heal)) = true)
    as [[ps total] Hinfra]%bool_decide_eq_true.
  { vm_compute. reflexivity. }
  assert (from_option
            (λ out, bool_decide ("a" ∈ default [] (round_files out !! 0%nat)
                                 ∧ "c" ∈ default [] (round_files out !! 0%nat)))
            false (makeHostfile demo_Parse order_id demo_heal) = true) as Hin.
  { vm_compute. reflexivity. }
  assert (from_option
            (λ x : gmap string Pool.t * Z,
               bool_decide (one_pool x.1 "a" ∧ one_pool x.1 "c"))
            false (getInfra demo_Parse order_id demo_heal) = true) as Hone.
  { vm_compute. reflexivity. }
  rewrite Hout in Hin. rewrite Hinfra in Hone. simpl in Hin, Hone.
  apply bool_decide_eq_true in Hin as [Hra%in_round_intro Hrc%in_round_intro].
  apply bool_decide_eq_true in Hone as [Hoa Hoc].
  exists out, ps, total.
  split; [exact Hinfra|]. split; [exact Hout|]. split; [exact Hra|].
  split; [exact Hrc|]. split; [exact Hoa|]. split; [exact Hoc|].
  destruct (C1_scheduler_safety demo_Parse order_id demo_heal out ps total
              order_id_ok Hinfra Hout) as (_ & _ & Hhosts).
  refine (Hhosts 0%nat "a" "c" Hra Hrc _ Hoa Hoc).
  clear. intros [=].
Defined.

Lemma C2_witness :
  (∃ ps total v,
     getInfra demo_Parse order_id demo4bad = Some (ps, total)
     ∧ view_at ps "1" "a" 1 = Some v
     ∧ Set_.BadDisks v = 1 ∧ Set_.SCParity v = 2 ∧ Set_.CanReboot v = false)
  ∧ (∃ ps total v,
       getInfra demo_Parse order_id demo4 = Some (ps, total)
       ∧ view_at ps "1" "a" 1 = Some v
       ∧ Set_.BadDisks v = 0 ∧ Set_.SCParity v = 2 ∧ Set_.CanReboot v = true).
Proof.
  split.
  - assert (bool_decide (is_Some (getInfra demo_Parse order_id demo4bad)) = true)
      as [[ps total] Hinfra]%bool_decide_eq_true.
    { vm_compute. reflexivity. }
    assert (from_option
              (λ x : gmap string Pool.t * Z,
                 bool_decide (is_Some (view_at x.1 "1" "a" 1)))
              false (getInfra demo_Parse order_id demo4bad) = true) as Hv.
    { vm_compute. reflexivity. }
    rewrite Hinfra in Hv. simpl in Hv. apply bool_decide_eq_true in Hv as [v Hv].
    assert (bad_count "1" 1 (madmin.Disks demo4bad) = 1) as Hcount.
    { vm_compute. reflexivity. }
    assert (Z.of_nat (length (madmin.Disks demo4bad)) ≤ int_max) as Hlen.
    { vm_compute. intros [=]. }
    assert (int_min < madmin.StandardSCParity (madmin.Backend demo4bad) ≤ int_max)
      as Hpar.
    { split; vm_compute; [reflexivity|intros [=]]. }
    pose proof (C2_CanReboot_threshold demo_Parse order_id demo4bad ps total
                  "1" "a" 1 v order_id_ok Hlen Hpar Hinfra Hv) as Hthm.
    cbv zeta in Hthm. destruct Hthm as (Hb & Hp & _ & _ & _ & H1).
    exists ps, total, v. split; [exact Hinfra|]. split; [exact Hv|].
    clear Hinfra Hv. rewrite Hcount in Hb.
    split; [exact Hb|]. split; [exact Hp|].
    exact (H1 eq_refl Hcount).
  - assert (bool_decide (is_Some (getInfra demo_Parse order_id demo4)) = true)
      as [[ps total] Hinfra]%bool_decide_eq_true.
    { vm_compute. reflexivity. }
    assert (from_option
              (λ x : gmap string Pool.t * Z,
                 bool_decide (is_Some (view_at x.1 "1" "a" 1)))
              false (getInfra demo_Parse order_id demo4) = true) as Hv.
    { vm_compute. reflexivity. }
    rewrite Hinfra in Hv. simpl in Hv. apply bool_decide_eq_true in Hv as [v Hv].
    assert (bad_count "1" 1 (madmin.Disks demo4) = 0) as Hcount.
    { vm_compute. reflexivity. }
    assert (Z.of_nat (length (madmin.Disks demo4)) ≤ int_max) as Hlen.
    { vm_compute. intros [=]. }
    assert (int_min < madmin.StandardSCParity (madmin.Backend demo4) ≤ int_max)
      as Hpar.
    { split; vm_compute; [reflexivity|intros [=]]. }
    pose proof (C2_CanReboot_threshold demo_Parse order_id demo4 ps total
                  "1" "a" 1 v order_id_ok Hlen Hpar Hinfra Hv) as Hthm.
    cbv zeta in Hthm. destruct Hthm as (Hb & Hp & _ & _ & H0 & _).
    exists ps, total, v. split; [exact Hinfra|]. split; [exact Hv|].
    clear Hinfra Hv. rewrite Hcount in Hb.
    split; [exact Hb|]. split; [exact Hp|].
    exact (H0 eq_refl Hcount).
Defined.

Lemma C3_witness :
  ∃ ps total v1 v2,
    getInfra demo_Parse order_id demo4bad = Some (ps, total)
    ∧ view_at ps "1" "a" 1 = Some v1 ∧ view_at ps "1" "d" 1 = Some v2
    ∧ Set_.BadDisks v1 = Set_.BadDisks v2
    ∧ Set_.CanReboot v1 = Set_.CanReboot v2
    ∧ Set_.BadDisks v1 = bad_count "1" 1 (madmin.Disks demo4bad).
Proof.
  assert (bool_decide (is_Some (getInfra demo_Parse order_id demo4bad)) = true)
    as [[ps total] Hinfra]%bool_decide_eq_true.
  { vm_compute. reflexivity. }
  assert (from_option
            (λ x : gmap string Pool.t * Z,
               bool_decide (is_Some (view_at x.1 "1" "a" 1)
                            ∧ is_Some (view_at x.1 "1" "d" 1)))
            false (getInfra demo_Parse order_id demo4bad) = true) as Hv.
  { vm_compute. reflexivity. }
  rewrite Hinfra in Hv. simpl in Hv.
  apply bool_decide_eq_true in Hv as [[v1 Hv1] [v2 Hv2]].
  exists ps, total, v1, v2.
  split; [exact Hinfra|]. split; [exact Hv1|]. split; [exact Hv2|].
  apply (C3_global_set_view_agreement demo_Parse order_id demo4bad ps total
           "1" 1 "a" "d" v1 v2 order_id_ok); [|exact Hinfra|exact Hv1|exact Hv2].
  unfold int_max. simpl. lia.
Defined.

Lemma C10_witness :
  ∃ ps total,
    getInfra demo_Parse order_id demo_dup = Some (ps, total)
    ∧ (∀ PI h SI e,
         disk_at ps PI h SI e
         = last (filter (filed_at demo_Parse PI h SI e) (madmin.Disks demo_dup))
           ≫= Disk_of demo_Parse)
    ∧ (∀ PI h SI v,
         view_at ps PI h SI = Some v →
         Set_.BadDisks v = bad_count PI SI (madmin.Disks demo_dup)).
Proof.
  assert (bool_decide (is_Some (getInfra demo_Parse order_id demo_dup)) = true)
    as [[ps total] Hinfra]%bool_decide_eq_true.
  { vm_compute. reflexivity. }
  exists ps, total. split; [exact Hinfra|].
  apply (C10_disk_dedup_by_endpoint demo_Parse order_id demo_dup ps total
           order_id_ok); [|exact Hinfra].
  unfold int_max. simpl. lia.
Defined.

Lemma C9_witness :
  match makeHostfile demo_Parse order_id demo4bad,
        makeHostfile demo_Parse order_rev demo4bad with
  | Some out1, Some out2 =>
      rebootRounds (final out1) = rebootRounds (final out2)
      ∧ unhealthy (final out1) = unhealthy (final out2)
      ∧ final out1 = final out2
      ∧ report out1 = report out2
      ∧ round_files out1 = round_files out2
      ∧ failure_file out1 ≡ₚ failure_file out2
  | None, None => True
  | _, _ => False
  end.
Proof.
  exact (C9_scheduler_determinism demo_Parse order_id order_rev demo4bad
           order_id_ok order_rev_ok).
Defined.

Lemma C6_witness :
  0 ≠ 1
  ∧ healMap (healSet 0 1 (demo_answers 3) {["0/1" := 1]}) !! "0/1" = Some 1
  ∧ healMap (healSet 0 1 (demo_answers 3) {["0/1" := 1]}) !! "0/0" = Some 3.
Proof.
  split; [lia|]. split.
  - rewrite (proj2 (C6_healSet_writes_under_pool_pool 0 1 (demo_answers 3)
                      {["0/1" := 1]})); [|lia].
    vm_compute. reflexivity.
  - vm_compute. reflexivity.
Defined.

Lemma C8_witness :
  monitorState (healSet 0 0 (demo_answers 5) {["0/0" := 1]}) = Running
  ∧ monitorState (healSet 0 0 (demo_answers 5 ++ [madmin.HealErr]) {["0/0" := 1]})
    = Exited
  ∧ healMap (healSet 0 0 (demo_answers 5 ++ [madmin.HealErr]) {["0/0" := 1]})
    !! healSet_key 0 0 = Some 0.
Proof.
  assert (monitorState (healSet 0 0 (demo_answers 5) {["0/0" := 1]}) = Running)
    as Hrun.
  { vm_compute. reflexivity. }
  split; [exact Hrun|].
  destruct (C8_heal_error_resets_count 0 0 (demo_answers 5) [] {["0/0" := 1]} Hrun)
    as (Hexit & _ & Hzero & _).
  split; [exact Hexit|exact Hzero].
Defined.

Lemma C5_witness :
  ∃ ps total m spawned,
    getInfra demo_Parse order_id demo_heal = Some (ps, total)
    ∧ heal demo_Parse order_id "a" demo_heal = Some (m, spawned)
    ∧ (∀ p s, (p, s) ∈ spawned ↔ heal_target ps "a" p s)
    ∧ NoDup spawned.
Proof.
  assert (bool_decide (is_Some (getInfra demo_Parse order_id demo_heal)) = true)
    as [[ps total] Hinfra]%bool_decide_eq_true.
  { vm_compute. reflexivity. }
  destruct (C5_heal_coverage demo_Parse order_id "a" demo_heal ps total
              order_id_ok Hinfra) as (m & spawned & Hheal & Hin & Hnd & _).
  exists ps, total, m, spawned.
  split; [exact Hinfra|]. split; [exact Hheal|]. split; [exact Hin|exact Hnd].
Defined.

Lemma C7_witness :
  ∃ out ps total v s,
    getInfra demo_Parse order_id demo_sole = Some (ps, total)
    ∧ makeHostfile demo_Parse order_id demo_sole = Some out
    ∧ ps !! "1" = Some v ∧ Pool.Servers v !! "a" = Some s
    ∧ size (Pool.Servers v) = 1%nat
    ∧ (¬ healthy s →
       "a" ∈ failure_file out
       ∧ (∀ i, ¬ assigned (final out) "1" "a" i)
       ∧ (one_pool ps "a" → ∀ i, ¬ in_round out i "a"))
    ∧ (healthy s →
       assigned (final out) "1" "a" 0
       ∧ (∀ i, assigned (final out) "1" "a" i → i = 0%nat)
       ∧ in_round out 0 "a"
       ∧ (one_pool ps "a" →
          ("a" ∉ failure_file out) ∧ ∀ i, in_round out i "a" → i = 0%nat)).
Proof.
  assert (bool_decide (is_Some (makeHostfile demo_Parse order_id demo_sole)) = true)
    as [out Hout]%bool_decide_eq_true.
  { vm_compute. reflexivity. }
  assert (bool_decide (is_Some (getInfra demo_Parse order_id demo_sole)) = true)
    as [[ps total] Hinfra]%bool_decide_eq_true.
  { vm_compute. reflexivity. }
  assert (from_option
            (λ x : gmap string Pool.t * Z,
               bool_decide
                 (is_Some (x.1 !! "1")
                  ∧ size (Pool.Servers (default (Pool.mk ∅) (x.1 !! "1"))) = 1%nat
                  ∧ is_Some (Pool.Servers (default (Pool.mk ∅) (x.1 !! "1")) !! "a")))
            false (getInfra demo_Parse order_id demo_sole) = true) as Hpool.
  { vm_compute. reflexivity. }
  rewrite Hinfra in Hpool. simpl in Hpool.
  apply bool_decide_eq_true in Hpool as ([v Hv] & Hsize & Ha).
  rewrite Hv in Hsize, Ha. simpl in Hsize, Ha. destruct Ha as [s Hs].
  exists out, ps, total, v, s.
  split; [exact Hinfra|]. split; [exact Hout|]. split; [exact Hv|].
  split; [exact Hs|]. split; [exact Hsize|].
  apply (C7_sole_server_same_rule demo_Parse order_id demo_sole out ps total
           "1" v "a" s order_id_ok); [|exact Hinfra|exact Hout|exact Hv|exact Hs
                                     |exact Hsize].
  unfold int_max. simpl. lia.
Defined.

Lemma C4_witness :
  ∃ out ps total,
    getInfra demo_Parse order_id demo_both = Some (ps, total)
    ∧ makeHostfile demo_Parse order_id demo_both = Some out
    ∧ (∀ h, h ∈ failure_file out
            ↔ ∃ PI s, server_at ps PI h = Some s ∧ ¬ healthy s)
    ∧ (∀ i h, in_round out i h
              ↔ ∃ PI, is_Some (server_at ps PI h) ∧ assigned (final out) PI h i)
    ∧ (∀ PI h s, server_at ps PI h = Some s → ¬ healthy s →
                 ∀ i, ¬ assigned (final out) PI h i)
    ∧ (∀ h, one_pool ps h →
         (h ∈ failure_file out → ∀ i, ¬ in_round out i h)
         ∧ (∀ i j, in_round out i h → in_round out j h → i = j))
    ∧ ((∃ PI h s, server_at ps PI h = Some s ∧ ¬ healthy s) → report out = None).
Proof.
  assert (bool_decide (is_Some (makeHostfile demo_Parse order_id demo_both)) = true)
    as [out Hout]%bool_decide_eq_true.
  { vm_compute. reflexivity. }
  assert (bool_decide (is_Some (getInfra demo_Parse order_id demo_both)) = true)
    as [[ps total] Hinfra]%bool_decide_eq_true.
  { vm_compute. reflexivity. }
  exists out, ps, total. split; [exact Hinfra|]. split; [exact Hout|].
  assert (Z.of_nat (length (madmin.Disks demo_both)) ≤ int_max) as Hlen.
  { unfold int_max. simpl. lia. }
  destruct (C4_scheduler_completeness demo_Parse order_id demo_both out ps total
              order_id_ok Hlen Hinfra Hout)
    as (H1 & H2 & H3 & _ & _ & H6 & _ & H8 & _).
  split; [exact H1|]. split; [exact H2|]. split; [exact H3|].
  split; [exact H6|exact H8].
Defined.
